(** * bolt/Core/AddressMap.h: the input-to-output address map

    A shallow embedding of [llvm::bolt::AddressMap] and of the two
    containers it is built from, followed by the properties of its lookup
    operations and of the emit/parse protocol around it. *)

From Stdlib Require Import List NArith Arith Bool Lia Permutation.
Import ListNotations.

(** [uint64_t]: addresses are only stored and compared, never computed with,
    so no wrap-around occurs anywhere in this file. *)
Definition uint64_t := N.

(** [const MCSymbol *]: a label is known by its identity (the pointer), not
    by its name. *)
Definition MCSymbolPtr := N.

(** Equality of (input address, output address) pairs is decidable. *)
Definition pair_eq_dec (x y : uint64_t * uint64_t) : {x = y} + {x <> y}.
Proof. decide equality; apply N.eq_dec. Defined.

(** [insert_at n x l] links [x] in front of position [n] of [l], or behind
    the last element when [l] is shorter. *)
Fixpoint insert_at {A : Type} (n : nat) (x : A) (l : list A) : list A :=
  match n, l with
  | O, _ => x :: l
  | S _, [] => [x]
  | S n', y :: l' => y :: insert_at n' x l'
  end.

(** ** [std::unordered_multimap<uint64_t, uint64_t>]

    The container is represented by its iteration sequence.  ISO C++
    ([unord.req]) fixes that elements with equivalent keys are adjacent in
    that sequence, and that neither rehashing nor later insertions change the
    relative order of equivalent elements.  It does not fix where, inside the
    group of its key, a new element is placed: that is the [Placement]. *)
Module UnorderedMultimap.

Definition t := list (uint64_t * uint64_t).

(** An iterator is a position of the iteration sequence; [end()] is the
    position behind the last element. *)
Definition iterator := nat.

Definition end_ (m : t) : iterator := length m.

Definition deref (m : t) (It : iterator) : option (uint64_t * uint64_t) :=
  nth_error m It.

Definition has_key (k : uint64_t) (p : uint64_t * uint64_t) : bool :=
  N.eqb (fst p) k.

(** [find]: the first element whose key is [k] (both libstdc++ and libc++
    return the head of the key's group), [end()] when there is none. *)
Fixpoint find (m : t) (k : uint64_t) : iterator :=
  match m with
  | [] => O
  | p :: rest => if has_key k p then O else S (find rest k)
  end.

(** The elements with key [k] at the very start of a sequence. *)
Fixpoint group (m : t) (k : uint64_t) : t :=
  match m with
  | [] => []
  | p :: rest => if has_key k p then p :: group rest k else []
  end.

(** [equal_range]: from the first element with key [k] up to the end of the
    run of such elements that starts there. *)
Definition equal_range (m : t) (k : uint64_t) : iterator * iterator :=
  let first := find m k in
  (first, first + length (group (skipn first m) k)).

(** The offset, inside the group of its key, at which a new element is
    linked, given the values already in that group and the new value.  An
    offset beyond the group means its end. *)
Definition Placement := list uint64_t -> uint64_t -> nat.

(** GNU libstdc++ ([_Hashtable::_M_insert_multi_node]) links the new node
    in front of the first equivalent one. *)
Definition libstdcxx : Placement := fun _ _ => O.

(** LLVM libc++ ([__hash_table::__node_insert_multi]) links the new node
    behind the last equivalent one. *)
Definition libcxx : Placement := fun grp _ => length grp.

(** [emplace]: the new element joins the group of its key at the offset the
    implementation chooses; a key met for the first time opens a group of
    its own (at the end of the sequence: no query of [AddressMap] observes
    the order between groups). *)
Definition emplace (P : Placement) (m : t) (k v : uint64_t) : t :=
  let first := find m k in
  let tail := skipn first m in
  let grp := group tail k in
  firstn first m
    ++ insert_at (P (map snd grp) v) (k, v) grp
    ++ skipn (length grp) tail.

(** Elements with equivalent keys are adjacent: behind an element, its key
    either continues at once or never comes again. *)
Fixpoint grouped (m : t) : Prop :=
  match m with
  | [] => True
  | p :: rest =>
      (group rest (fst p) <> [] \/ ~ In (fst p) (map fst rest))
      /\ grouped rest
  end.

(** The values stored under [k], in iteration order. *)
Definition values_of (m : t) (k : uint64_t) : list uint64_t :=
  map snd (filter (has_key k) m).

(** The values met when walking the iterator range [[first, last)]. *)
Definition range_values (m : t) (r : iterator * iterator) : list uint64_t :=
  map snd (firstn (snd r - fst r) (skipn (fst r) m)).

End UnorderedMultimap.

(** ** [DenseMap<const MCSymbol *, uint64_t>] *)
Module DenseMap.

(** Modelled from the spec: [llvm::DenseMap] (llvm/ADT/DenseMap.h) is not
    part of the sources at hand.  The spec describes [LabelToAddress] as a
    single-valued relation keyed by label identity; it is represented by
    its occupied buckets. *)
Definition t := list (MCSymbolPtr * uint64_t).

Definition iterator := nat.

Definition end_ (m : t) : iterator := length m.

Definition deref (m : t) (It : iterator) : option (MCSymbolPtr * uint64_t) :=
  nth_error m It.

(** Modelled from the spec: lookup by identity key; [end()] when the label
    was never recorded. *)
Fixpoint find (m : t) (k : MCSymbolPtr) : iterator :=
  match m with
  | [] => O
  | p :: rest => if N.eqb (fst p) k then O else S (find rest k)
  end.

(** Modelled from the spec: recording a label that is already present
    keeps the address recorded first (the first-wins policy of the spec's
    design notes). *)
Definition insert (m : t) (k : MCSymbolPtr) (v : uint64_t) : t :=
  if Nat.eqb (find m k) (end_ m) then m ++ [(k, v)] else m.

Fixpoint overwrite (m : t) (k : MCSymbolPtr) (v : uint64_t) : t :=
  match m with
  | [] => []
  | p :: rest =>
      if N.eqb (fst p) k then (k, v) :: rest else p :: overwrite rest k v
  end.

(** Modelled from the spec: recording a label that is already present
    replaces its address (the last-wins policy of the spec's design
    notes). *)
Definition assign (m : t) (k : MCSymbolPtr) (v : uint64_t) : t :=
  if Nat.eqb (find m k) (end_ m) then m ++ [(k, v)] else overwrite m k v.

End DenseMap.

(** Modelled from the spec: the policy for a label recorded more than once is
    left open by the spec (section 9); both are covered. *)
Inductive LabelPolicy := FirstWins | LastWins.

Definition recordLabel (L : LabelPolicy) : DenseMap.t -> MCSymbolPtr -> uint64_t -> DenseMap.t :=
  match L with
  | FirstWins => DenseMap.insert
  | LastWins => DenseMap.assign
  end.

(** ** [class AddressMap] *)

Definition Addr2AddrMapTy := UnorderedMultimap.t.
Definition Label2AddrMapTy := DenseMap.t.

Record AddressMap := mkAddressMap {
  Address2AddressMap : Addr2AddrMapTy;
  Label2AddrMap : Label2AddrMapTy
}.

(** The default-constructed map. *)
Definition empty : AddressMap := mkAddressMap [] [].

(** [std::optional<uint64_t> lookup(uint64_t InputAddress) const] *)
Definition lookup (M : AddressMap) (InputAddress : uint64_t) : option uint64_t :=
  let It := UnorderedMultimap.find (Address2AddressMap M) InputAddress in
  if negb (Nat.eqb It (UnorderedMultimap.end_ (Address2AddressMap M)))
  then option_map snd (UnorderedMultimap.deref (Address2AddressMap M) It)
  else None.

(** [std::optional<uint64_t> lookup(const MCSymbol *Symbol) const] *)
Definition lookupSymbol (M : AddressMap) (Symbol : MCSymbolPtr) : option uint64_t :=
  let It := DenseMap.find (Label2AddrMap M) Symbol in
  if negb (Nat.eqb It (DenseMap.end_ (Label2AddrMap M)))
  then option_map snd (DenseMap.deref (Label2AddrMap M) It)
  else None.

(** [lookupAll(uint64_t InputAddress) const]: the pair of iterators. *)
Definition lookupAll (M : AddressMap) (InputAddress : uint64_t)
  : UnorderedMultimap.iterator * UnorderedMultimap.iterator :=
  UnorderedMultimap.equal_range (Address2AddressMap M) InputAddress.

(** The loop of [getAllOutputs]:
    [for (auto It = Range.first; It != Range.second; ++It)
       Outputs.push_back(It->second);]
    [None] stands for a run that does not end within [fuel] iterations or
    that dereferences [end()]. *)
Fixpoint push_range (fuel : nat) (m : Addr2AddrMapTy)
    (It last : UnorderedMultimap.iterator) (Outputs : list uint64_t)
  : option (list uint64_t) :=
  match fuel with
  | O => None
  | S fuel' =>
      if Nat.eqb It last then Some Outputs
      else match UnorderedMultimap.deref m It with
           | Some p => push_range fuel' m (S It) last (Outputs ++ [snd p])
           | None => None
           end
  end.

(** [std::vector<uint64_t> getAllOutputs(uint64_t InputAddress) const] *)
Definition getAllOutputs (M : AddressMap) (InputAddress : uint64_t)
  : option (list uint64_t) :=
  let Range := lookupAll M InputAddress in
  push_range (S (length (Address2AddressMap M))) (Address2AddressMap M)
             (fst Range) (snd Range) [].

(** The sequence the iterator range of [lookupAll] denotes, read off the
    container from the first iterator up to the second. *)
Definition lookupAll_values (M : AddressMap) (InputAddress : uint64_t)
  : list uint64_t :=
  UnorderedMultimap.range_values (Address2AddressMap M) (lookupAll M InputAddress).

(** ** Filling the map

    The header declares no mutator: the two relations are private and are
    filled by [parse], one [emplace] per address record and one insertion per
    label record. *)

Definition recordAddress (P : UnorderedMultimap.Placement) (M : AddressMap)
    (Input Output : uint64_t) : AddressMap :=
  mkAddressMap (UnorderedMultimap.emplace P (Address2AddressMap M) Input Output)
               (Label2AddrMap M).

Definition recordSymbol (L : LabelPolicy) (M : AddressMap)
    (Label : MCSymbolPtr) (Output : uint64_t) : AddressMap :=
  mkAddressMap (Address2AddressMap M)
               (recordLabel L (Label2AddrMap M) Label Output).

(** A sequence of (input address, output address) insertions, oldest first. *)
Definition insertAll (P : UnorderedMultimap.Placement) (M : AddressMap)
    (pairs : list (uint64_t * uint64_t)) : AddressMap :=
  fold_left (fun M' p => recordAddress P M' (fst p) (snd p)) pairs M.

(** The output addresses a sequence of insertions gives for one input
    address, in insertion order. *)
Definition inserted_for (a : uint64_t) (pairs : list (uint64_t * uint64_t))
  : list uint64_t :=
  map snd (filter (UnorderedMultimap.has_key a) pairs).

(** ** The map as a state machine: every operation a client or [parse] can
    perform on one instance. *)
Inductive Operation :=
| OpRecordAddress (Input Output : uint64_t)
| OpRecordSymbol (Label : MCSymbolPtr) (Output : uint64_t)
| OpLookup (InputAddress : uint64_t)
| OpLookupSymbol (Symbol : MCSymbolPtr)
| OpLookupAll (InputAddress : uint64_t)
| OpGetAllOutputs (InputAddress : uint64_t).

Inductive Answer :=
| Done
| Found (Output : option uint64_t)
| Range (r : UnorderedMultimap.iterator * UnorderedMultimap.iterator)
| Outputs (v : option (list uint64_t)).

Definition is_query (op : Operation) : bool :=
  match op with
  | OpRecordAddress _ _ | OpRecordSymbol _ _ => false
  | _ => true
  end.

Section Machine.

Variable P : UnorderedMultimap.Placement.
Variable L : LabelPolicy.

Definition step (M : AddressMap) (op : Operation) : AddressMap * Answer :=
  match op with
  | OpRecordAddress i o => (recordAddress P M i o, Done)
  | OpRecordSymbol l o => (recordSymbol L M l o, Done)
  | OpLookup a => (M, Found (lookup M a))
  | OpLookupSymbol s => (M, Found (lookupSymbol M s))
  | OpLookupAll a => (M, Range (lookupAll M a))
  | OpGetAllOutputs a => (M, Outputs (getAllOutputs M a))
  end.

Definition run (M : AddressMap) (ops : list Operation) : AddressMap :=
  fold_left (fun M' op => fst (step M' op)) ops M.

Definition reachable (M : AddressMap) : Prop :=
  exists ops, M = run empty ops.

End Machine.

(** ** The emit and parse protocols *)

(** Modelled from the spec: a symbolic reference names an output-side
    position before the linker has assigned it an address. *)
Definition SymbolicReference := N.

(** Modelled from the spec: [AddressMap::emit] and [AddressMap::parse] are
    declared in the header and defined in bolt/lib/Core/AddressMap.cpp, which
    is not among the sources at hand.  The two sections are kept as sequences
    of logical records (the spec fixes the record semantics and leaves the
    byte layout open); a section that does not exist is [None]. *)
Record ObjectFile := mkObjectFile {
  AddressSection : option (list (uint64_t * SymbolicReference));
  LabelSection : option (list (MCSymbolPtr * SymbolicReference))
}.

Definition noSections : ObjectFile := mkObjectFile None None.

Definition records {A : Type} (Section_ : option (list A)) : list A :=
  match Section_ with
  | Some rs => rs
  | None => []
  end.

(** Modelled from the spec: the object-section writer's
    [appendRecord(sectionName, bytes)], one function per section. *)
Definition appendAddressRecord (O : ObjectFile)
    (r : uint64_t * SymbolicReference) : ObjectFile :=
  mkObjectFile (Some (records (AddressSection O) ++ [r])) (LabelSection O).

Definition appendLabelRecord (O : ObjectFile)
    (r : MCSymbolPtr * SymbolicReference) : ObjectFile :=
  mkObjectFile (AddressSection O) (Some (records (LabelSection O) ++ [r])).

(** Modelled from the spec: emit writes into two designated sections, which
    therefore exist afterwards, also when nothing was recorded. *)
Definition openSections (O : ObjectFile) : ObjectFile :=
  mkObjectFile (Some (records (AddressSection O)))
               (Some (records (LabelSection O))).

(** Modelled from the spec: [emit] appends, in encounter order, one record
    per (input address, output position) association to the address section
    and one per (input label, output position) association to the label
    section. *)
Definition emit (Streamer : ObjectFile)
    (Addresses : list (uint64_t * SymbolicReference))
    (Labels : list (MCSymbolPtr * SymbolicReference)) : ObjectFile :=
  fold_left appendLabelRecord Labels
    (fold_left appendAddressRecord Addresses (openSections Streamer)).

(** Modelled from the spec: the symbol resolver,
    [resolve(symbolicReference) -> optional<u64>]. *)
Definition Resolver := SymbolicReference -> option uint64_t.

(** Modelled from the spec: what [parse] consumes is the linked binary's
    two sections together with the resolver. *)
Record BinaryContext := mkBinaryContext {
  Object : ObjectFile;
  resolve : Resolver
}.

Definition link (O : ObjectFile) (R : Resolver) : BinaryContext :=
  mkBinaryContext O R.

Section Parse.

Variable P : UnorderedMultimap.Placement.
Variable L : LabelPolicy.

(** Modelled from the spec: a record whose reference resolves is inserted,
    one whose reference does not resolve is skipped. *)
Definition parseAddressRecord (R : Resolver) (M : AddressMap)
    (r : uint64_t * SymbolicReference) : AddressMap :=
  match R (snd r) with
  | Some Output => recordAddress P M (fst r) Output
  | None => M
  end.

Definition parseLabelRecord (R : Resolver) (M : AddressMap)
    (r : MCSymbolPtr * SymbolicReference) : AddressMap :=
  match R (snd r) with
  | Some Output => recordSymbol L M (fst r) Output
  | None => M
  end.

(** Modelled from the spec: [parse] has no value when neither section
    exists; otherwise it reads the records of each section in stored order
    into a fresh map. *)
Definition parse (BC : BinaryContext) : option AddressMap :=
  match AddressSection (Object BC), LabelSection (Object BC) with
  | None, None => None
  | As, Ls =>
      Some (fold_left (parseLabelRecord (resolve BC)) (records Ls)
              (fold_left (parseAddressRecord (resolve BC)) (records As)
                 empty))
  end.

End Parse.

(** The records of a section whose reference resolves, as (input, output
    address) pairs. *)
Definition resolved {K : Type} (R : Resolver)
    (rs : list (K * SymbolicReference)) : list (K * uint64_t) :=
  flat_map (fun r => match R (snd r) with
                     | Some Output => [(fst r, Output)]
                     | None => []
                     end) rs.

(** What a sequence of operations records: the address pairs and the label
    pairs, oldest first. *)
Definition recorded_addresses (ops : list Operation)
  : list (uint64_t * uint64_t) :=
  flat_map (fun op => match op with
                      | OpRecordAddress i o => [(i, o)]
                      | _ => []
                      end) ops.

Definition recorded_labels (ops : list Operation)
  : list (MCSymbolPtr * uint64_t) :=
  flat_map (fun op => match op with
                      | OpRecordSymbol l o => [(l, o)]
                      | _ => []
                      end) ops.

(** The records of a section whose reference resolves, in stored order. *)
Definition keep_resolvable {K : Type} (R : Resolver)
    (rs : list (K * SymbolicReference)) : list (K * SymbolicReference) :=
  filter (fun r => match R (snd r) with Some _ => true | None => false end) rs.

(** The same binary with the records that do not resolve taken out of both
    sections. *)
Definition without_unresolved (BC : BinaryContext) : BinaryContext :=
  mkBinaryContext
    (mkObjectFile
       (option_map (keep_resolvable (resolve BC)) (AddressSection (Object BC)))
       (option_map (keep_resolvable (resolve BC)) (LabelSection (Object BC))))
    (resolve BC).

(** A sequence of (label, output address) recordings, oldest first. *)
Definition recordAllSymbols (L : LabelPolicy) (M : AddressMap)
    (pairs : list (MCSymbolPtr * uint64_t)) : AddressMap :=
  fold_left (fun M' p => recordSymbol L M' (fst p) (snd p)) pairs M.

(** The symbolic references emitted for one input address, in encounter
    order. *)
Definition emitted_for (a : uint64_t)
    (Addresses : list (uint64_t * SymbolicReference))
  : list SymbolicReference :=
  map snd (filter (fun r => N.eqb (fst r) a) Addresses).

(** What [parse] builds when at least one section exists: the resolvable
    address records, then the resolvable label records, put into a fresh
    map. *)
Definition parsed (P : UnorderedMultimap.Placement) (L : LabelPolicy)
    (BC : BinaryContext) : AddressMap :=
  recordAllSymbols L
    (insertAll P empty
       (resolved (resolve BC) (records (AddressSection (Object BC)))))
    (resolved (resolve BC) (records (LabelSection (Object BC)))).

(** ** Concrete runs *)

Example cloned_block_libcxx :
  let M := insertAll UnorderedMultimap.libcxx empty
             [(0x1000, 0x5000); (0x1000, 0x5020)]%N in
  lookup M 0x1000%N = Some 0x5000%N
  /\ lookupAll M 0x1000%N = (0, 2)
  /\ getAllOutputs M 0x1000%N = Some [0x5000; 0x5020]%N.
Proof. repeat split. Qed.

Example cloned_block_libstdcxx :
  let M := insertAll UnorderedMultimap.libstdcxx empty
             [(0x1000, 0x5000); (0x1000, 0x5020)]%N in
  lookup M 0x1000%N = Some 0x5020%N
  /\ getAllOutputs M 0x1000%N = Some [0x5020; 0x5000]%N.
Proof. repeat split. Qed.

Example interleaved_keys :
  let M := insertAll UnorderedMultimap.libcxx empty
             [(1, 10); (2, 20); (1, 11); (3, 30); (2, 21); (1, 12)]%N in
  Address2AddressMap M = [(1, 10); (1, 11); (1, 12); (2, 20); (2, 21); (3, 30)]%N
  /\ lookupAll M 2%N = (3, 5)
  /\ getAllOutputs M 2%N = Some [20; 21]%N
  /\ getAllOutputs M 4%N = Some []
  /\ lookup M 4%N = None.
Proof. repeat split. Qed.

(** ** Facts about the iteration sequence *)

Section InsertAt.

Context {A : Type}.

Lemma insert_at_nil (n : nat) (x : A) : insert_at n x [] = [x].
Proof. destruct n; reflexivity. Qed.

Lemma insert_at_length_back (x : A) (l : list A) :
  insert_at (length l) x l = l ++ [x].
Proof. induction l as [|y l IH]; simpl; [reflexivity | now rewrite IH]. Qed.

Lemma insert_at_perm (n : nat) (x : A) (l : list A) :
  Permutation (insert_at n x l) (x :: l).
Proof.
  revert n; induction l as [|y l IH]; intros n.
  - rewrite insert_at_nil. apply Permutation_refl.
  - destruct n as [|n]; simpl; [apply Permutation_refl|].
    eapply perm_trans; [apply perm_skip, IH | apply perm_swap].
Qed.

Lemma insert_at_not_nil (n : nat) (x : A) (l : list A) :
  insert_at n x l <> [].
Proof. destruct n, l; discriminate. Qed.

Lemma insert_at_Forall (Q : A -> Prop) (n : nat) (x : A) (l : list A) :
  Q x -> Forall Q l -> Forall Q (insert_at n x l).
Proof.
  intros Hx Hl; revert n; induction Hl as [|y l Hy Hl IH]; intros n.
  - rewrite insert_at_nil. now constructor.
  - destruct n; simpl; repeat constructor; auto.
Qed.

Lemma insert_at_map {B : Type} (f : A -> B) (n : nat) (x : A) (l : list A) :
  map f (insert_at n x l) = insert_at n (f x) (map f l).
Proof.
  revert n; induction l as [|y l IH]; intros n.
  - destruct n; reflexivity.
  - destruct n; simpl; [reflexivity | now rewrite IH].
Qed.

Lemma insert_at_filter_out (f : A -> bool) (n : nat) (x : A) (l : list A) :
  f x = false -> filter f (insert_at n x l) = filter f l.
Proof.
  intros Hx; revert n; induction l as [|y l IH]; intros n.
  - rewrite insert_at_nil; simpl; now rewrite Hx.
  - destruct n; simpl; [now rewrite Hx | now rewrite IH].
Qed.

End InsertAt.

Lemma filter_all {A : Type} (f : A -> bool) (l : list A) :
  Forall (fun x => f x = true) l -> filter f l = l.
Proof.
  induction 1 as [|x l Hx _ IH]; simpl; [reflexivity|].
  now rewrite Hx, IH.
Qed.

Lemma filter_none {A : Type} (f : A -> bool) (l : list A) :
  Forall (fun x => f x = false) l -> filter f l = [].
Proof.
  induction 1 as [|x l Hx _ IH]; simpl; [reflexivity|].
  now rewrite Hx.
Qed.

Lemma skipn_nth_error {A : Type} (l : list A) (n : nat) (x : A) :
  nth_error l n = Some x -> skipn n l = x :: skipn (S n) l.
Proof.
  revert n; induction l as [|y l IH]; intros [|n] H; simpl in *;
    try discriminate.
  - now injection H as ->.
  - now apply IH.
Qed.

Module UMFacts.
Import UnorderedMultimap.

Lemma has_key_true k p : has_key k p = true <-> fst p = k.
Proof. unfold has_key. apply N.eqb_eq. Qed.

Lemma has_key_false k p : has_key k p = false <-> fst p <> k.
Proof. unfold has_key. apply N.eqb_neq. Qed.

Lemma find_le m k : find m k <= length m.
Proof.
  induction m as [|p m IH]; simpl; [lia|].
  destruct (has_key k p); lia.
Qed.

(** No element in front of [find] has the key. *)
Lemma before_find m k :
  Forall (fun p => has_key k p = false) (firstn (find m k) m).
Proof.
  induction m as [|p m IH]; simpl; [constructor|].
  destruct (has_key k p) eqn:E; simpl; [constructor|].
  now constructor.
Qed.

(** At [find] the sequence ends or an element with the key stands. *)
Lemma at_find m k :
  skipn (find m k) m = []
  \/ exists p rest, skipn (find m k) m = p :: rest /\ has_key k p = true.
Proof.
  induction m as [|p m IH]; simpl; [now left|].
  destruct (has_key k p) eqn:E; simpl; [right; eauto | exact IH].
Qed.

Lemma find_end_iff m k :
  find m k = end_ m <-> ~ In k (map fst m).
Proof.
  unfold end_. induction m as [|p m IH]; simpl; [tauto|].
  destruct (has_key k p) eqn:E.
  - apply has_key_true in E. split; [discriminate | intros H; tauto].
  - apply has_key_false in E. split.
    + intros H [Hp | Hin]; [now apply E|]. apply IH; [lia | exact Hin].
    + intros H. f_equal. apply IH. tauto.
Qed.

Lemma group_Forall m k : Forall (fun p => has_key k p = true) (group m k).
Proof.
  induction m as [|p m IH]; simpl; [constructor|].
  destruct (has_key k p) eqn:E; now constructor.
Qed.

Lemma group_split m k : m = group m k ++ skipn (length (group m k)) m.
Proof.
  induction m as [|p m IH]; simpl; [reflexivity|].
  destruct (has_key k p); simpl; [now rewrite <- IH | reflexivity].
Qed.

Lemma group_firstn m k : firstn (length (group m k)) m = group m k.
Proof.
  induction m as [|p m IH]; simpl; [reflexivity|].
  destruct (has_key k p); simpl; [now rewrite IH | reflexivity].
Qed.

Lemma group_length_le m k : length (group m k) <= length m.
Proof.
  induction m as [|p m IH]; simpl; [lia|].
  destruct (has_key k p); simpl; lia.
Qed.

(** Behind the run of [k] the next element, if any, has another key. *)
Lemma group_rest m k : group (skipn (length (group m k)) m) k = [].
Proof.
  induction m as [|p m IH]; simpl; [reflexivity|].
  destruct (has_key k p) eqn:E; simpl; [exact IH | now rewrite E].
Qed.

Lemma group_app_all g post k :
  Forall (fun p => has_key k p = true) g ->
  group (g ++ post) k = g ++ group post k.
Proof.
  induction 1 as [|p g Hp _ IH]; simpl; [reflexivity|].
  now rewrite Hp, IH.
Qed.

Lemma group_nil_not_in m k :
  ~ In k (map fst m) -> group m k = [].
Proof.
  destruct m as [|p m]; simpl; [reflexivity|].
  intros H. destruct (has_key k p) eqn:E; [|reflexivity].
  apply has_key_true in E. tauto.
Qed.

Lemma filter_not_in m k :
  ~ In k (map fst m) -> filter (has_key k) m = [].
Proof.
  intros H. apply filter_none. apply Forall_forall. intros p Hp.
  apply has_key_false. intros <-. apply H. now apply in_map.
Qed.

Lemma filter_nil_not_in m k :
  filter (has_key k) m = [] -> ~ In k (map fst m).
Proof.
  intros H Hin. apply in_map_iff in Hin as [p [Hk Hp]].
  assert (In p (filter (has_key k) m)) as Hf
    by (apply filter_In; split; [exact Hp | now apply has_key_true]).
  now rewrite H in Hf.
Qed.

(** In a grouped sequence that starts with key [k], the leading run holds
    every element with that key. *)
Lemma grouped_filter_group m k :
  grouped m -> group m k <> [] -> filter (has_key k) m = group m k.
Proof.
  induction m as [|p m IH]; simpl; [reflexivity|].
  intros [Hadj Hm] Hne. destruct (has_key k p) eqn:E; [|congruence].
  apply has_key_true in E. rewrite E in Hadj. f_equal.
  destruct Hadj as [Hrun | Hout].
  - now apply IH.
  - now rewrite filter_not_in, group_nil_not_in.
Qed.

Lemma grouped_skipn m n : grouped m -> grouped (skipn n m).
Proof.
  revert m; induction n as [|n IH]; intros m H; [exact H|].
  destruct m as [|p m]; [exact H|]. simpl. apply IH. apply H.
Qed.

Lemma filter_from_find m k :
  filter (has_key k) m = filter (has_key k) (skipn (find m k) m).
Proof.
  induction m as [|p m IH]; simpl; [reflexivity|].
  destruct (has_key k p) eqn:E; simpl; [now rewrite E | exact IH].
Qed.

(** The adjacency invariant is what makes [equal_range] complete. *)
Lemma grouped_filter m k :
  grouped m -> filter (has_key k) m = group (skipn (find m k) m) k.
Proof.
  intros H. rewrite filter_from_find.
  destruct (at_find m k) as [E | [p [rest [E Hp]]]].
  - now rewrite E.
  - apply grouped_filter_group; [now apply grouped_skipn|].
    rewrite E; simpl; now rewrite Hp.
Qed.

Lemma range_values_equal_range m k :
  range_values m (equal_range m k)
  = map snd (group (skipn (find m k) m) k).
Proof.
  unfold range_values, equal_range; simpl.
  replace (find m k + length (group (skipn (find m k) m) k) - find m k)
    with (length (group (skipn (find m k) m) k)) by lia.
  now rewrite group_firstn.
Qed.

Lemma range_values_grouped m k :
  grouped m -> range_values m (equal_range m k) = values_of m k.
Proof.
  intros H. rewrite range_values_equal_range. unfold values_of.
  now rewrite grouped_filter.
Qed.

Lemma equal_range_bounds m k :
  fst (equal_range m k) <= snd (equal_range m k)
  /\ snd (equal_range m k) <= length m.
Proof.
  unfold equal_range; simpl. split; [lia|].
  pose proof (group_length_le (skipn (find m k) m) k) as H.
  rewrite length_skipn in H. pose proof (find_le m k). lia.
Qed.

End UMFacts.

(** ** Facts about [emplace] *)

Module EmplaceFacts.
Import UnorderedMultimap UMFacts.

Section WithPlacement.

Variable P : Placement.

Lemma emplace_nil k v : emplace P [] k v = [(k, v)].
Proof. unfold emplace; simpl. now rewrite insert_at_nil. Qed.

Lemma emplace_skip p rest k v :
  has_key k p = false ->
  emplace P (p :: rest) k v = p :: emplace P rest k v.
Proof. intros E. unfold emplace; simpl. now rewrite E. Qed.

Lemma emplace_here p rest k v :
  has_key k p = true ->
  emplace P (p :: rest) k v
  = insert_at (P (map snd (group (p :: rest) k)) v) (k, v)
              (group (p :: rest) k)
    ++ skipn (length (group (p :: rest) k)) (p :: rest).
Proof. intros E. unfold emplace. simpl find. now rewrite E. Qed.

(** [emplace] adds one element and removes none. *)
Lemma emplace_perm m k v : Permutation (emplace P m k v) ((k, v) :: m).
Proof.
  induction m as [|p m IH].
  - rewrite emplace_nil. apply Permutation_refl.
  - destruct (has_key k p) eqn:E.
    + rewrite emplace_here by exact E.
      set (g := group (p :: m) k). set (post := skipn (length g) (p :: m)).
      assert (Hm : p :: m = g ++ post) by apply group_split.
      rewrite Hm.
      exact (Permutation_app_tail post (insert_at_perm _ (k, v) g)).
    + rewrite emplace_skip by exact E.
      eapply perm_trans; [apply perm_skip, IH | apply perm_swap].
Qed.

Lemma emplace_keys m k v k' :
  In k' (map fst (emplace P m k v)) <-> k' = k \/ In k' (map fst m).
Proof.
  pose proof (Permutation_map fst (emplace_perm m k v)) as Hp. simpl in Hp.
  split; intros H.
  - apply (Permutation_in _ Hp) in H. simpl in H.
    destruct H as [H | H]; [left; now symmetry | now right].
  - apply (Permutation_in _ (Permutation_sym Hp)). simpl.
    destruct H as [H | H]; [left; now symmetry | now right].
Qed.

(** A run of one key followed by a sequence that starts with another:
    grouped exactly when the key does not come back. *)
Lemma grouped_run g post k :
  Forall (fun p => has_key k p = true) g -> g <> [] ->
  group post k = [] ->
  (grouped (g ++ post) <-> grouped post /\ ~ In k (map fst post)).
Proof.
  intros Hg Hne Hpost. induction Hg as [|p g Hp Hg IH]; [congruence|].
  apply has_key_true in Hp. simpl. rewrite Hp.
  destruct g as [|q g].
  - simpl. rewrite Hpost. split.
    + intros [[H | H] Hr]; [congruence | tauto].
    + intros [Hr H]; tauto.
  - assert (E : has_key k q = true) by now inversion Hg.
    split.
    + intros [_ Hr]. apply IH; [discriminate | exact Hr].
    + intros H. split; [|apply IH; [discriminate | exact H]].
      left. simpl. rewrite E. discriminate.
Qed.

(** [emplace] keeps equivalent keys adjacent. *)
Lemma grouped_emplace m k v : grouped m -> grouped (emplace P m k v).
Proof.
  induction m as [|p m IH]; intros H.
  - rewrite emplace_nil. simpl. tauto.
  - destruct (has_key k p) eqn:E.
    + rewrite emplace_here by exact E.
      assert (Hne : group (p :: m) k <> [])
        by (simpl; rewrite E; discriminate).
      set (g := group (p :: m) k) in *.
      set (post := skipn (length g) (p :: m)).
      assert (Hm : p :: m = g ++ post) by apply group_split.
      assert (Hpost : grouped post /\ ~ In k (map fst post)).
      { refine (proj1 (grouped_run g post k _ Hne _) _);
          [apply group_Forall | apply group_rest
          | rewrite <- Hm; exact H]. }
      refine (proj2 (grouped_run _ post k _ _ _) Hpost);
        [| apply insert_at_not_nil | apply group_rest].
      apply insert_at_Forall; [now apply has_key_true | apply group_Forall].
    + rewrite emplace_skip by exact E.
      destruct H as [Hadj Hm]. simpl. split; [|now apply IH].
      apply has_key_false in E.
      destruct Hadj as [Hrun | Hout].
      * left. destruct m as [|q m]; [now simpl in Hrun|].
        simpl in Hrun. destruct (has_key (fst p) q) eqn:Eq; [|congruence].
        apply has_key_true in Eq.
        rewrite emplace_skip by (apply has_key_false; congruence).
        simpl. replace (has_key (fst p) q) with true
          by (symmetry; now apply has_key_true).
        discriminate.
      * right. rewrite emplace_keys. intros [Hk | Hin]; auto.
Qed.

(** Another key's values are untouched. *)
Lemma values_of_emplace_other m k v k' :
  k' <> k -> values_of (emplace P m k v) k' = values_of m k'.
Proof.
  intros Hk. unfold values_of. f_equal.
  assert (Hx : has_key k' (k, v) = false) by (apply has_key_false; auto).
  induction m as [|p m IH].
  - rewrite emplace_nil. simpl. now rewrite Hx.
  - destruct (has_key k p) eqn:E.
    + rewrite emplace_here by exact E.
      set (g := group (p :: m) k). set (post := skipn (length g) (p :: m)).
      assert (Hm : p :: m = g ++ post) by apply group_split.
      rewrite Hm, !filter_app. f_equal. now apply insert_at_filter_out.
    + rewrite emplace_skip by exact E. simpl. now rewrite IH.
Qed.

(** The new value joins its key's values at the chosen offset. *)
Lemma values_of_emplace_same m k v :
  grouped m ->
  values_of (emplace P m k v) k
  = insert_at (P (values_of m k) v) v (values_of m k).
Proof.
  unfold values_of. induction m as [|p m IH]; intros H.
  - rewrite emplace_nil. simpl. unfold has_key; simpl.
    rewrite N.eqb_refl. simpl. now rewrite insert_at_nil.
  - destruct (has_key k p) eqn:E.
    + rewrite emplace_here by exact E.
      assert (Hne : group (p :: m) k <> [])
        by (simpl; rewrite E; discriminate).
      pose proof (grouped_filter_group (p :: m) k H Hne) as Hf.
      rewrite Hf.
      set (g := group (p :: m) k) in *.
      set (post := skipn (length g) (p :: m)).
      assert (Hm : p :: m = g ++ post) by apply group_split.
      assert (Hpost : grouped post /\ ~ In k (map fst post)).
      { refine (proj1 (grouped_run g post k _ Hne _) _);
          [apply group_Forall | apply group_rest
          | rewrite <- Hm; exact H]. }
      rewrite filter_app, (filter_not_in post k (proj2 Hpost)), app_nil_r.
      rewrite filter_all
        by (apply insert_at_Forall;
            [now apply has_key_true | apply group_Forall]).
      apply insert_at_map.
    + rewrite emplace_skip by exact E. simpl. rewrite E.
      apply IH. apply H.
Qed.

Lemma values_of_emplace_perm m k v :
  grouped m ->
  Permutation (values_of (emplace P m k v) k) (values_of m k ++ [v]).
Proof.
  intros H. rewrite values_of_emplace_same by exact H.
  eapply perm_trans; [apply insert_at_perm | apply Permutation_cons_append].
Qed.

End WithPlacement.

Lemma values_of_emplace_libcxx m k v :
  grouped m -> values_of (emplace libcxx m k v) k = values_of m k ++ [v].
Proof.
  intros H. rewrite values_of_emplace_same by exact H.
  unfold libcxx. apply insert_at_length_back.
Qed.

Lemma values_of_emplace_libstdcxx m k v :
  grouped m -> values_of (emplace libstdcxx m k v) k = v :: values_of m k.
Proof.
  intros H. now rewrite values_of_emplace_same by exact H.
Qed.

End EmplaceFacts.

(** ** Facts about the lookups *)

Module LookupFacts.
Import UnorderedMultimap UMFacts EmplaceFacts.

(** The loop of [getAllOutputs] ends and collects the values of the range,
    whenever the range lies inside the container. *)
Lemma push_range_spec fuel m It last acc :
  It <= last -> last <= length m -> last - It < fuel ->
  push_range fuel m It last acc
  = Some (acc ++ map snd (firstn (last - It) (skipn It m))).
Proof.
  revert It acc. induction fuel as [|fuel IH]; intros It acc H1 H2 H3; [lia|].
  simpl. destruct (Nat.eqb It last) eqn:E.
  - apply Nat.eqb_eq in E. subst. rewrite Nat.sub_diag. simpl.
    now rewrite app_nil_r.
  - apply Nat.eqb_neq in E. unfold deref.
    destruct (nth_error m It) as [p|] eqn:Hn.
    + rewrite IH by lia. rewrite (skipn_nth_error m It p Hn).
      replace (last - It) with (S (last - S It)) by lia. simpl.
      now rewrite <- app_assoc.
    + apply nth_error_None in Hn. lia.
Qed.

Lemma getAllOutputs_lookupAll M a :
  getAllOutputs M a = Some (lookupAll_values M a).
Proof.
  unfold getAllOutputs, lookupAll_values, lookupAll.
  destruct (equal_range_bounds (Address2AddressMap M) a) as [H1 H2].
  rewrite push_range_spec by (try assumption; lia). reflexivity.
Qed.

(** [lookup] yields the element the range of [lookupAll] starts with. *)
Lemma lookup_head M a : lookup M a = hd_error (lookupAll_values M a).
Proof.
  unfold lookup, lookupAll_values, lookupAll.
  rewrite range_values_equal_range.
  set (m := Address2AddressMap M). unfold deref, end_.
  destruct (Nat.eqb (find m a) (length m)) eqn:E; simpl.
  - apply Nat.eqb_eq in E. rewrite E, skipn_all. reflexivity.
  - apply Nat.eqb_neq in E.
    destruct (at_find m a) as [H | [p [rest [H Hp]]]].
    + exfalso. apply (f_equal (@length _)) in H. rewrite length_skipn in H.
      simpl in H. pose proof (find_le m a). lia.
    + rewrite H. simpl. rewrite Hp. simpl.
      assert (Hn : nth_error m (find m a) = Some p).
      { rewrite <- (firstn_skipn (find m a) m) at 1.
        rewrite nth_error_app2; rewrite length_firstn;
          pose proof (find_le m a) as Hle.
        - replace (find m a - Nat.min (find m a) (length m)) with O by lia.
          now rewrite H.
        - lia. }
      now rewrite Hn.
Qed.

Lemma lookupAll_values_grouped M a :
  grouped (Address2AddressMap M) ->
  lookupAll_values M a = values_of (Address2AddressMap M) a.
Proof. apply range_values_grouped. Qed.

Section WithPlacement.

Variable P : Placement.

Lemma insertAll_labels M pairs :
  Label2AddrMap (insertAll P M pairs) = Label2AddrMap M.
Proof.
  revert M; induction pairs as [|p pairs IH]; intros M; [reflexivity|].
  simpl. now rewrite IH.
Qed.

Lemma insertAll_grouped M pairs :
  grouped (Address2AddressMap M) ->
  grouped (Address2AddressMap (insertAll P M pairs)).
Proof.
  revert M; induction pairs as [|p pairs IH]; intros M H; [exact H|].
  simpl. apply IH. simpl. now apply grouped_emplace.
Qed.

Lemma insertAll_values_perm M pairs a :
  grouped (Address2AddressMap M) ->
  Permutation (values_of (Address2AddressMap (insertAll P M pairs)) a)
              (values_of (Address2AddressMap M) a ++ inserted_for a pairs).
Proof.
  revert M; induction pairs as [|p pairs IH]; intros M H.
  - unfold inserted_for. simpl. now rewrite app_nil_r.
  - simpl. eapply perm_trans;
      [apply IH; simpl; now apply grouped_emplace|].
    unfold inserted_for. simpl.
    destruct (has_key a p) eqn:E.
    + apply has_key_true in E. subst a. simpl.
      eapply perm_trans;
        [apply Permutation_app_tail, values_of_emplace_perm, H|].
      rewrite <- app_assoc. apply Permutation_refl.
    + apply has_key_false in E.
      rewrite values_of_emplace_other by congruence.
      apply Permutation_refl.
Qed.

Lemma insertAll_counts M pairs q :
  count_occ pair_eq_dec (Address2AddressMap (insertAll P M pairs)) q
  = count_occ pair_eq_dec (Address2AddressMap M) q
    + count_occ pair_eq_dec pairs q.
Proof.
  revert M; induction pairs as [|p pairs IH]; intros M; [simpl; lia|].
  simpl insertAll. rewrite IH. simpl Address2AddressMap.
  pose proof (emplace_perm P (Address2AddressMap M) (fst p) (snd p)) as Hp.
  apply (proj1 (Permutation_count_occ pair_eq_dec _ _)) with (x := q) in Hp.
  rewrite Hp. destruct p as [i o]. cbn [fst snd].
  destruct (pair_eq_dec (i, o) q) as [Heq | Hneq].
  - rewrite !(count_occ_cons_eq pair_eq_dec _ Heq). lia.
  - rewrite !(count_occ_cons_neq pair_eq_dec _ Hneq). lia.
Qed.

End WithPlacement.

Lemma insertAll_values_libcxx M pairs a :
  grouped (Address2AddressMap M) ->
  values_of (Address2AddressMap (insertAll libcxx M pairs)) a
  = values_of (Address2AddressMap M) a ++ inserted_for a pairs.
Proof.
  revert M; induction pairs as [|p pairs IH]; intros M H.
  - unfold inserted_for. simpl. now rewrite app_nil_r.
  - simpl. rewrite IH by (simpl; now apply grouped_emplace).
    unfold inserted_for. simpl.
    destruct (has_key a p) eqn:E.
    + apply has_key_true in E. subst a. simpl.
      rewrite values_of_emplace_libcxx by exact H.
      now rewrite <- app_assoc.
    + apply has_key_false in E.
      now rewrite values_of_emplace_other by congruence.
Qed.

Lemma insertAll_values_libstdcxx M pairs a :
  grouped (Address2AddressMap M) ->
  values_of (Address2AddressMap (insertAll libstdcxx M pairs)) a
  = rev (inserted_for a pairs) ++ values_of (Address2AddressMap M) a.
Proof.
  revert M; induction pairs as [|p pairs IH]; intros M H.
  - reflexivity.
  - simpl. rewrite IH by (simpl; now apply grouped_emplace).
    unfold inserted_for. simpl.
    destruct (has_key a p) eqn:E.
    + apply has_key_true in E. subst a. simpl.
      rewrite values_of_emplace_libstdcxx by exact H.
      now rewrite <- app_assoc.
    + apply has_key_false in E.
      now rewrite values_of_emplace_other by congruence.
Qed.

End LookupFacts.

(** ** Facts about the label relation *)

Module DMFacts.
Import DenseMap.

Lemma label_find_le m k : find m k <= length m.
Proof.
  induction m as [|p m IH]; simpl; [lia|].
  destruct (N.eqb (fst p) k); lia.
Qed.

Lemma label_find_end_iff m k : find m k = end_ m <-> ~ In k (map fst m).
Proof.
  unfold end_. induction m as [|p m IH]; simpl; [tauto|].
  destruct (N.eqb (fst p) k) eqn:E.
  - apply N.eqb_eq in E. split; [discriminate | tauto].
  - apply N.eqb_neq in E. split.
    + intros H [Hp | Hin]; [now apply E|]. apply IH; [lia | exact Hin].
    + intros H. f_equal. apply IH. tauto.
Qed.

(** What [find] points at carries the key that was asked for. *)
Lemma find_deref m k p :
  deref m (find m k) = Some p -> fst p = k /\ In p m.
Proof.
  unfold deref. induction m as [|q m IH]; simpl; [discriminate|].
  destruct (N.eqb (fst q) k) eqn:E; simpl.
  - intros [= ->]. apply N.eqb_eq in E. auto.
  - intros H. destruct (IH H); auto.
Qed.

Lemma find_deref_unique m k v :
  NoDup (map fst m) -> In (k, v) m -> deref m (find m k) = Some (k, v).
Proof.
  unfold deref. induction m as [|q m IH]; simpl; [tauto|].
  intros Hnd Hin. inversion Hnd as [|? ? Hq Hm]; subst.
  destruct (N.eqb (fst q) k) eqn:E; simpl.
  - apply N.eqb_eq in E. destruct Hin as [-> | Hin]; [reflexivity|].
    exfalso. apply Hq. rewrite E.
    change k with (fst (k, v)). now apply in_map.
  - apply N.eqb_neq in E. destruct Hin as [-> | Hin]; [now simpl in E|].
    now apply IH.
Qed.

Lemma overwrite_keys m k v : map fst (overwrite m k v) = map fst m.
Proof.
  induction m as [|p m IH]; simpl; [reflexivity|].
  destruct (N.eqb (fst p) k) eqn:E; simpl.
  - apply N.eqb_eq in E. now rewrite E.
  - now rewrite IH.
Qed.

Lemma NoDup_snoc (ks : list MCSymbolPtr) (k : MCSymbolPtr) :
  NoDup ks -> ~ In k ks -> NoDup (ks ++ [k]).
Proof.
  intros Hnd Hk. apply NoDup_app.
  - exact Hnd.
  - repeat constructor. simpl. tauto.
  - intros x Hx [<- | []]. now apply Hk.
Qed.

(** Either policy keeps at most one bucket per label. *)
Lemma recordLabel_NoDup L m k v :
  NoDup (map fst m) -> NoDup (map fst (recordLabel L m k v)).
Proof.
  intros H. destruct L; simpl; unfold insert, assign;
    destruct (Nat.eqb (find m k) (end_ m)) eqn:E;
    try (apply Nat.eqb_eq, label_find_end_iff in E; rewrite map_app; simpl;
         now apply NoDup_snoc);
    [exact H | now rewrite overwrite_keys].
Qed.

Lemma recordLabel_keys L m k v k' :
  In k' (map fst (recordLabel L m k v)) -> k' = k \/ In k' (map fst m).
Proof.
  destruct L; simpl; unfold insert, assign;
    destruct (Nat.eqb (find m k) (end_ m));
    rewrite ?map_app, ?overwrite_keys, ?in_app_iff; simpl; intuition.
Qed.

End DMFacts.

(** ** Facts about sequences of operations *)

Module MachineFacts.
Import UnorderedMultimap UMFacts EmplaceFacts LookupFacts DMFacts.

Lemma lookupSymbol_None M s :
  lookupSymbol M s = None <-> ~ In s (map fst (Label2AddrMap M)).
Proof.
  unfold lookupSymbol. rewrite <- DMFacts.label_find_end_iff.
  set (m := Label2AddrMap M).
  destruct (Nat.eqb (DenseMap.find m s) (DenseMap.end_ m)) eqn:E; simpl.
  - apply Nat.eqb_eq in E. tauto.
  - apply Nat.eqb_neq in E. split; [|tauto].
    unfold DenseMap.deref.
    destruct (nth_error m (DenseMap.find m s)) eqn:Hn; [discriminate|].
    apply nth_error_None in Hn. pose proof (DMFacts.label_find_le m s).
    unfold DenseMap.end_ in E. lia.
Qed.

Lemma lookupSymbol_Some M s v :
  NoDup (map fst (Label2AddrMap M)) ->
  (lookupSymbol M s = Some v <-> In (s, v) (Label2AddrMap M)).
Proof.
  intros Hnd. unfold lookupSymbol. set (m := Label2AddrMap M) in *. split.
  - destruct (Nat.eqb (DenseMap.find m s) (DenseMap.end_ m)); simpl;
      [discriminate|].
    destruct (DenseMap.deref m (DenseMap.find m s)) as [p|] eqn:Hd;
      [|discriminate].
    simpl. intros [= <-]. apply find_deref in Hd as [Hk Hin].
    destruct p; simpl in *; now subst.
  - intros Hin. rewrite (find_deref_unique m s v Hnd Hin). simpl.
    destruct (Nat.eqb (DenseMap.find m s) (DenseMap.end_ m)) eqn:E;
      [|reflexivity].
    apply Nat.eqb_eq, DMFacts.label_find_end_iff in E. exfalso. apply E.
    change s with (fst (s, v)). now apply in_map.
Qed.

Section WithPolicies.

Variable P : Placement.
Variable L : LabelPolicy.

Lemma run_cons M op ops :
  run P L M (op :: ops) = run P L (fst (step P L M op)) ops.
Proof. reflexivity. Qed.

Lemma run_app M ops1 ops2 :
  run P L M (ops1 ++ ops2) = run P L (run P L M ops1) ops2.
Proof. unfold run. apply fold_left_app. Qed.

Lemma step_query M op : is_query op = true -> fst (step P L M op) = M.
Proof. destruct op; simpl; congruence. Qed.

Lemma run_queries M ops :
  forallb is_query ops = true -> run P L M ops = M.
Proof.
  revert M; induction ops as [|op ops IH]; intros M H; [reflexivity|].
  simpl in H. apply andb_prop in H as [H1 H2].
  rewrite run_cons, step_query by exact H1. now apply IH.
Qed.

Lemma insertAll_addresses_ext M M' pairs :
  Address2AddressMap M = Address2AddressMap M' ->
  Address2AddressMap (insertAll P M pairs)
  = Address2AddressMap (insertAll P M' pairs).
Proof.
  revert M M'; induction pairs as [|p pairs IH]; intros M M' H;
    [exact H|].
  simpl. apply IH. simpl. now rewrite H.
Qed.

Lemma run_addresses M ops :
  Address2AddressMap (run P L M ops)
  = Address2AddressMap (insertAll P M (recorded_addresses ops)).
Proof.
  revert M; induction ops as [|op ops IH]; intros M; [reflexivity|].
  rewrite run_cons, IH.
  destruct op; simpl; try reflexivity; now apply insertAll_addresses_ext.
Qed.

Lemma run_grouped M ops :
  grouped (Address2AddressMap M) ->
  grouped (Address2AddressMap (run P L M ops)).
Proof. intros H. rewrite run_addresses. now apply insertAll_grouped. Qed.

Lemma run_labels_NoDup M ops :
  NoDup (map fst (Label2AddrMap M)) ->
  NoDup (map fst (Label2AddrMap (run P L M ops))).
Proof.
  revert M; induction ops as [|op ops IH]; intros M H; [exact H|].
  rewrite run_cons. apply IH.
  destruct op; simpl; try exact H. now apply recordLabel_NoDup.
Qed.

Lemma run_label_keys M ops s :
  In s (map fst (Label2AddrMap (run P L M ops))) ->
  In s (map fst (Label2AddrMap M))
  \/ In s (map fst (recorded_labels ops)).
Proof.
  revert M; induction ops as [|op ops IH]; intros M H; [now left|].
  rewrite run_cons in H. apply IH in H.
  destruct op; simpl in *; try tauto.
  destruct H as [H | H]; [|tauto].
  apply recordLabel_keys in H. intuition.
Qed.

Lemma reachable_grouped M :
  reachable P L M -> grouped (Address2AddressMap M).
Proof. intros [ops ->]. apply run_grouped. exact I. Qed.

Lemma reachable_labels_NoDup M :
  reachable P L M -> NoDup (map fst (Label2AddrMap M)).
Proof. intros [ops ->]. apply run_labels_NoDup. constructor. Qed.

End WithPolicies.

End MachineFacts.

(** * The lookup operations *)

Import UnorderedMultimap.

Lemma insertAll_keys P M pairs k :
  In k (map fst (Address2AddressMap (insertAll P M pairs)))
  <-> In k (map fst (Address2AddressMap M)) \/ In k (map fst pairs).
Proof.
  revert M; induction pairs as [|p pairs IH]; intros M; [simpl; tauto|].
  simpl insertAll. rewrite IH. simpl Address2AddressMap.
  rewrite EmplaceFacts.emplace_keys. simpl. intuition.
Qed.

Lemma inserted_for_nil a pairs :
  ~ In a (map fst pairs) -> inserted_for a pairs = [].
Proof.
  intros H. unfold inserted_for. now rewrite UMFacts.filter_not_in.
Qed.

Lemma lookupAll_values_insertAll P pairs a :
  Permutation (lookupAll_values (insertAll P empty pairs) a)
              (inserted_for a pairs).
Proof.
  rewrite LookupFacts.lookupAll_values_grouped
    by (apply LookupFacts.insertAll_grouped; exact I).
  apply (LookupFacts.insertAll_values_perm P empty pairs a I).
Qed.

Lemma lookupAll_values_libcxx pairs a :
  lookupAll_values (insertAll libcxx empty pairs) a = inserted_for a pairs.
Proof.
  rewrite LookupFacts.lookupAll_values_grouped
    by (apply LookupFacts.insertAll_grouped; exact I).
  apply (LookupFacts.insertAll_values_libcxx empty pairs a I).
Qed.

Lemma lookupAll_values_libstdcxx pairs a :
  lookupAll_values (insertAll libstdcxx empty pairs) a
  = rev (inserted_for a pairs).
Proof.
  rewrite LookupFacts.lookupAll_values_grouped
    by (apply LookupFacts.insertAll_grouped; exact I).
  rewrite (LookupFacts.insertAll_values_libstdcxx empty pairs a I).
  apply app_nil_r.
Qed.

Lemma lookup_None_iff M a :
  lookup M a = None <-> ~ In a (map fst (Address2AddressMap M)).
Proof.
  rewrite <- UMFacts.find_end_iff. unfold lookup, deref, end_.
  set (m := Address2AddressMap M).
  destruct (Nat.eqb (find m a) (length m)) eqn:E; simpl.
  - apply Nat.eqb_eq in E. tauto.
  - apply Nat.eqb_neq in E. split; [|tauto].
    destruct (nth_error m (find m a)) eqn:Hn; [discriminate|].
    apply nth_error_None in Hn. pose proof (UMFacts.find_le m a). lia.
Qed.

(** C1, as amended: for every placement the container may use and every
    sequence of inserted (input address, output address) pairs,
    [lookupAll] (the values its iterator range denotes) and [getAllOutputs]
    return exactly the output addresses inserted for that input address, each
    as often as it was inserted, and the empty sequence when the input
    address was never inserted.  Their order is the container's order inside
    the key's group: insertion order where a new element is linked behind
    its group (libc++), the reverse where it is linked in front
    (libstdc++). *)
Theorem lookupAll_returns_inserted
    (P : Placement) (pairs : list (uint64_t * uint64_t)) (a : uint64_t) :
  getAllOutputs (insertAll P empty pairs) a
  = Some (lookupAll_values (insertAll P empty pairs) a)
  /\ Permutation (lookupAll_values (insertAll P empty pairs) a)
                 (inserted_for a pairs)
  /\ (~ In a (map fst pairs) ->
      lookupAll_values (insertAll P empty pairs) a = [])
  /\ lookupAll_values (insertAll libcxx empty pairs) a = inserted_for a pairs
  /\ lookupAll_values (insertAll libstdcxx empty pairs) a
     = rev (inserted_for a pairs).
Proof.
  split; [apply LookupFacts.getAllOutputs_lookupAll|].
  split; [apply lookupAll_values_insertAll|].
  split.
  - intros H. apply Permutation_nil. apply Permutation_sym.
    rewrite <- (inserted_for_nil a pairs H).
    apply lookupAll_values_insertAll.
  - split; [apply lookupAll_values_libcxx | apply lookupAll_values_libstdcxx].
Qed.

Lemma lookupAll_returns_inserted_witness :
  ~ In 0x2000%N (map fst [(0x1000, 0x5000); (0x1000, 0x5020)]%N)
  /\ lookupAll_values
       (insertAll libstdcxx empty [(0x1000, 0x5000); (0x1000, 0x5020)]%N)
       0x2000%N = [].
Proof.
  assert (H : ~ In 0x2000%N (map fst [(0x1000, 0x5000); (0x1000, 0x5020)]%N)).
  { simpl. intros [H | [H | []]]; discriminate H. }
  split; [exact H|].
  exact (proj1 (proj2 (proj2
           (lookupAll_returns_inserted libstdcxx
              [(0x1000, 0x5000); (0x1000, 0x5020)]%N 0x2000%N))) H).
Defined.

(** C1 as stated fails: with libstdc++'s placement, two outputs inserted for
    one input address come back in the reverse of their insertion order. *)
Lemma lookupAll_insertion_order_fails :
  lookupAll_values
    (insertAll libstdcxx empty [(0x1000, 0x5000); (0x1000, 0x5020)]%N)
    0x1000%N
  = [0x5020; 0x5000]%N
  /\ getAllOutputs
       (insertAll libstdcxx empty [(0x1000, 0x5000); (0x1000, 0x5020)]%N)
       0x1000%N
     <> Some (inserted_for 0x1000%N [(0x1000, 0x5000); (0x1000, 0x5020)]%N).
Proof. split; [reflexivity | discriminate]. Qed.

(** What [lookup] returns under each placement: the output address that
    stands first in the key's group of the container (the first value of
    [lookupAll]), which is one of the output addresses inserted for that
    input address, and "not found" exactly when none was inserted.  Where a
    new element is linked behind its group (libc++) that is the output
    recorded first, as the header's "first (primary) output address" asks;
    where it is linked in front (libstdc++) it is the output recorded
    last. *)
Theorem lookup_returns_group_head
    (P : Placement) (pairs : list (uint64_t * uint64_t)) (a : uint64_t) :
  lookup (insertAll P empty pairs) a
  = hd_error (lookupAll_values (insertAll P empty pairs) a)
  /\ (forall o, lookup (insertAll P empty pairs) a = Some o ->
                In o (inserted_for a pairs))
  /\ (lookup (insertAll P empty pairs) a = None <-> inserted_for a pairs = [])
  /\ lookup (insertAll libcxx empty pairs) a = hd_error (inserted_for a pairs)
  /\ lookup (insertAll libstdcxx empty pairs) a
     = hd_error (rev (inserted_for a pairs))
  /\ (let M := insertAll libcxx empty [(0x1000, 0x5000); (0x1000, 0x5020)]%N in
      lookup M 0x1000%N = Some 0x5000%N
      /\ lookupAll_values M 0x1000%N = [0x5000; 0x5020]%N)
  /\ (let M := insertAll libstdcxx empty [(0x1000, 0x5000); (0x1000, 0x5020)]%N in
      lookup M 0x1000%N = Some 0x5020%N
      /\ lookupAll_values M 0x1000%N = [0x5020; 0x5000]%N).
Proof.
  pose proof (lookupAll_values_insertAll P pairs a) as Hperm.
  pose proof (lookupAll_values_libcxx pairs a) as Hb.
  pose proof (lookupAll_values_libstdcxx pairs a) as Hf.
  split; [apply LookupFacts.lookup_head|].
  split.
  { intros o Ho. rewrite LookupFacts.lookup_head in Ho.
    apply (Permutation_in _ Hperm).
    destruct (lookupAll_values (insertAll P empty pairs) a); simpl in Ho;
      [discriminate | injection Ho as ->; now left]. }
  split.
  { rewrite LookupFacts.lookup_head. split.
    - intros Hn.
      destruct (lookupAll_values (insertAll P empty pairs) a);
        [|discriminate].
      apply Permutation_nil. exact Hperm.
    - intros Hn. rewrite Hn in Hperm.
      apply Permutation_sym, Permutation_nil in Hperm. now rewrite Hperm. }
  split; [rewrite LookupFacts.lookup_head; now rewrite Hb|].
  split; [rewrite LookupFacts.lookup_head; now rewrite Hf|].
  repeat split.
Qed.

Lemma lookup_returns_group_head_witness :
  lookup (insertAll libcxx empty [(0x1000, 0x5000); (0x1000, 0x5020)]%N)
         0x1000%N = Some 0x5000%N
  /\ In 0x5000%N
        (inserted_for 0x1000%N [(0x1000, 0x5000); (0x1000, 0x5020)]%N).
Proof.
  split; [reflexivity|].
  exact (proj1 (proj2
           (lookup_returns_group_head libcxx
              [(0x1000, 0x5000); (0x1000, 0x5020)]%N 0x1000%N))
           0x5000%N eq_refl).
Defined.

(** C2: the code falls short of the claim and of its own header comment
    ("Use lookup() to get the first (primary) output address").  Built with
    libstdc++, after 0x1000 -> 0x5000 and then 0x1000 -> 0x5020 are
    inserted, [lookup(0x1000)] yields 0x5020, the output recorded last, and
    not 0x5000, the output recorded first. *)
Lemma lookup_first_recorded_fails :
  lookup (insertAll libstdcxx empty [(0x1000, 0x5000); (0x1000, 0x5020)]%N)
         0x1000%N
  = Some 0x5020%N
  /\ lookup (insertAll libstdcxx empty [(0x1000, 0x5000); (0x1000, 0x5020)]%N)
            0x1000%N
     <> hd_error (inserted_for 0x1000%N [(0x1000, 0x5000); (0x1000, 0x5020)]%N).
Proof. split; [reflexivity | discriminate]. Qed.

Lemma lookupAll_values_nil_range M a :
  lookupAll_values M a = [] -> fst (lookupAll M a) = snd (lookupAll M a).
Proof.
  unfold lookupAll_values, lookupAll.
  rewrite UMFacts.range_values_equal_range. intros H.
  apply map_eq_nil in H. unfold equal_range; simpl. rewrite H. simpl. lia.
Qed.

Lemma lookupAll_values_not_in M a :
  ~ In a (map fst (Address2AddressMap M)) -> lookupAll_values M a = [].
Proof.
  intros H. apply lookup_None_iff in H.
  rewrite LookupFacts.lookup_head in H.
  now destruct (lookupAll_values M a).
Qed.

(** C9: for every map and every input address, the loop of [getAllOutputs]
    ends and returns exactly the values met when the iterator range returned
    by [lookupAll] is walked from its first iterator up to its second. *)
Theorem getAllOutputs_walks_lookupAll (M : AddressMap) (a : uint64_t) :
  getAllOutputs M a
  = Some (range_values (Address2AddressMap M) (lookupAll M a))
  /\ fst (lookupAll M a) <= snd (lookupAll M a)
  /\ snd (lookupAll M a) <= end_ (Address2AddressMap M).
Proof.
  split; [apply LookupFacts.getAllOutputs_lookupAll|].
  apply UMFacts.equal_range_bounds.
Qed.

(** C10: whenever at least one mapping exists for an input address,
    [lookup] returns a value that occurs in the sequence returned by
    [getAllOutputs]; and [lookup] returns "not found" exactly when that
    sequence is empty. *)
Theorem lookup_consistent_with_getAllOutputs (M : AddressMap) (a : uint64_t) :
  (In a (map fst (Address2AddressMap M)) ->
   exists o outs,
     lookup M a = Some o /\ getAllOutputs M a = Some outs /\ In o outs)
  /\ (lookup M a = None <-> getAllOutputs M a = Some []).
Proof.
  rewrite LookupFacts.getAllOutputs_lookupAll. split.
  - intros Hin. destruct (lookup M a) as [o|] eqn:Ho.
    + exists o, (lookupAll_values M a). repeat split.
      rewrite LookupFacts.lookup_head in Ho.
      destruct (lookupAll_values M a); simpl in Ho;
        [discriminate | injection Ho as ->; now left].
    + apply lookup_None_iff in Ho. contradiction.
  - rewrite LookupFacts.lookup_head. split.
    + intros H. now destruct (lookupAll_values M a).
    + intros [= ->]. reflexivity.
Qed.

Lemma lookup_consistent_with_getAllOutputs_witness :
  In 1%N (map fst [(1, 10); (1, 11); (2, 20)]%N)
  /\ exists o outs,
       lookup (mkAddressMap [(1, 10); (1, 11); (2, 20)]%N []) 1%N = Some o
       /\ getAllOutputs (mkAddressMap [(1, 10); (1, 11); (2, 20)]%N []) 1%N
          = Some outs
       /\ In o outs.
Proof.
  assert (H : In 1%N (map fst [(1, 10); (1, 11); (2, 20)]%N))
    by (simpl; now left).
  split; [exact H|].
  exact (proj1 (lookup_consistent_with_getAllOutputs
                  (mkAddressMap [(1, 10); (1, 11); (2, 20)]%N []) 1%N) H).
Defined.

(** C6: in the map any sequence of operations builds, an input address that
    was never recorded has no [lookup] result, an empty [lookupAll] range
    and an empty [getAllOutputs] vector, and a label that was never recorded
    has no [lookup] result; each of these calls returns. *)
Theorem unrecorded_key_not_found
    (P : Placement) (L : LabelPolicy) (ops : list Operation)
    (a : uint64_t) (s : MCSymbolPtr) :
  (~ In a (map fst (recorded_addresses ops)) ->
   lookup (run P L empty ops) a = None
   /\ fst (lookupAll (run P L empty ops) a)
      = snd (lookupAll (run P L empty ops) a)
   /\ lookupAll_values (run P L empty ops) a = []
   /\ getAllOutputs (run P L empty ops) a = Some [])
  /\ (~ In s (map fst (recorded_labels ops)) ->
      lookupSymbol (run P L empty ops) s = None).
Proof.
  split.
  - intros H.
    assert (Hk : ~ In a (map fst (Address2AddressMap (run P L empty ops)))).
    { rewrite MachineFacts.run_addresses, insertAll_keys. simpl. tauto. }
    pose proof (lookupAll_values_not_in _ _ Hk) as Hv.
    split; [now apply lookup_None_iff|].
    split; [now apply lookupAll_values_nil_range|].
    split; [exact Hv|].
    now rewrite LookupFacts.getAllOutputs_lookupAll, Hv.
  - intros H. apply MachineFacts.lookupSymbol_None. intros Hin.
    apply MachineFacts.run_label_keys in Hin. simpl in Hin. tauto.
Qed.

Lemma unrecorded_key_not_found_witness :
  lookup (run libstdcxx FirstWins empty
            [OpRecordAddress 1 10; OpRecordSymbol 7 70; OpLookup 1]%N) 2%N
  = None
  /\ lookupSymbol (run libstdcxx FirstWins empty
                     [OpRecordAddress 1 10; OpRecordSymbol 7 70; OpLookup 1]%N)
                  8%N
     = None.
Proof.
  pose proof (unrecorded_key_not_found libstdcxx FirstWins
                [OpRecordAddress 1 10; OpRecordSymbol 7 70; OpLookup 1]%N
                2%N 8%N) as [Ha Hs].
  split.
  - apply Ha. simpl. intros [H | []]. discriminate H.
  - apply Hs. simpl. intros [H | []]. discriminate H.
Defined.

(** C7: a lookup operation (by address, by label, [lookupAll],
    [getAllOutputs]) returns the map it was called on; after any number of
    lookups the map is the same and the same query has the same answer; and
    whatever operations follow, every recorded (input address, output
    address) pair stays in the address relation as often as it was there:
    none is updated or deleted. *)
Theorem lookups_do_not_mutate
    (P : Placement) (L : LabelPolicy) (M : AddressMap)
    (queries ops : list Operation) (q : Operation)
    (pr : uint64_t * uint64_t) :
  is_query q = true ->
  forallb is_query queries = true ->
  fst (step P L M q) = M
  /\ run P L M queries = M
  /\ snd (step P L (run P L M queries) q) = snd (step P L M q)
  /\ count_occ pair_eq_dec (Address2AddressMap M) pr
     <= count_occ pair_eq_dec (Address2AddressMap (run P L M ops)) pr
  /\ incl (Address2AddressMap M) (Address2AddressMap (run P L M ops)).
Proof.
  intros Hq Hqs.
  split; [now apply MachineFacts.step_query|].
  split; [now apply MachineFacts.run_queries|].
  split; [now rewrite MachineFacts.run_queries|].
  assert (Hc : forall x,
             count_occ pair_eq_dec (Address2AddressMap M) x
             <= count_occ pair_eq_dec (Address2AddressMap (run P L M ops)) x).
  { intros x. rewrite MachineFacts.run_addresses, LookupFacts.insertAll_counts.
    lia. }
  split; [apply Hc|].
  intros x Hx. apply (count_occ_In pair_eq_dec) in Hx.
  apply (count_occ_In pair_eq_dec). specialize (Hc x). lia.
Qed.

Lemma lookups_do_not_mutate_witness :
  let M := mkAddressMap [(1, 10); (1, 11)]%N [(7, 70)]%N in
  fst (step libcxx FirstWins M (OpGetAllOutputs 1%N)) = M
  /\ run libcxx FirstWins M [OpLookup 1%N; OpLookupSymbol 7%N] = M.
Proof.
  pose proof (lookups_do_not_mutate libcxx FirstWins
                (mkAddressMap [(1, 10); (1, 11)]%N [(7, 70)]%N)
                [OpLookup 1%N; OpLookupSymbol 7%N] []
                (OpGetAllOutputs 1%N) (1, 10)%N eq_refl eq_refl)
    as [H1 [H2 _]].
  split; [exact H1 | exact H2].
Defined.

(** C8: in every state any sequence of operations reaches, under either
    policy for a label recorded twice, no label has two entries in the label
    relation, so a label is related to at most one output address; and
    [lookup(label)] returns that address when the label has an entry and
    "not found" when it has none. *)
Theorem label_relation_single_valued
    (P : Placement) (L : LabelPolicy) (M : AddressMap) :
  reachable P L M ->
  NoDup (map fst (Label2AddrMap M))
  /\ (forall s v1 v2,
        In (s, v1) (Label2AddrMap M) -> In (s, v2) (Label2AddrMap M) ->
        v1 = v2)
  /\ (forall s v, In (s, v) (Label2AddrMap M) <-> lookupSymbol M s = Some v)
  /\ (forall s, ~ In s (map fst (Label2AddrMap M)) <-> lookupSymbol M s = None).
Proof.
  intros HR. pose proof (@MachineFacts.reachable_labels_NoDup P L M HR) as Hnd.
  split; [exact Hnd|].
  split.
  - intros s v1 v2 H1 H2.
    apply (MachineFacts.lookupSymbol_Some M s v1 Hnd) in H1.
    apply (MachineFacts.lookupSymbol_Some M s v2 Hnd) in H2.
    congruence.
  - split.
    + intros s v. symmetry. now apply MachineFacts.lookupSymbol_Some.
    + intros s. symmetry. apply MachineFacts.lookupSymbol_None.
Qed.

Lemma label_relation_single_valued_witness :
  let M := run libcxx LastWins empty
             [OpRecordSymbol 7 70; OpRecordSymbol 8 80; OpRecordSymbol 7 71]%N in
  reachable libcxx LastWins M
  /\ NoDup (map fst (Label2AddrMap M))
  /\ lookupSymbol M 7%N = Some 71%N.
Proof.
  assert (HR : reachable libcxx LastWins
                 (run libcxx LastWins empty
                    [OpRecordSymbol 7 70; OpRecordSymbol 8 80;
                     OpRecordSymbol 7 71]%N))
    by (eexists; reflexivity).
  split; [exact HR|].
  split; [exact (proj1 (@label_relation_single_valued _ _ _ HR)) | reflexivity].
Defined.

(** * The emit and parse protocols *)

Module ParseFacts.

Lemma recordAllSymbols_addresses L M pairs :
  Address2AddressMap (recordAllSymbols L M pairs) = Address2AddressMap M.
Proof.
  revert M; induction pairs as [|p pairs IH]; intros M; [reflexivity|].
  simpl. now rewrite IH.
Qed.

Lemma lookupAll_values_ext M M' a :
  Address2AddressMap M = Address2AddressMap M' ->
  lookupAll_values M a = lookupAll_values M' a.
Proof. unfold lookupAll_values, lookupAll. now intros ->. Qed.

Section WithResolver.

Variable P : Placement.
Variable L : LabelPolicy.
Variable R : Resolver.

(** Reading a section inserts its resolvable records, in stored order. *)
Lemma parse_addresses_resolved rs M :
  fold_left (parseAddressRecord P R) rs M = insertAll P M (resolved R rs).
Proof.
  revert M; induction rs as [|r rs IH]; intros M; [reflexivity|].
  simpl. rewrite IH. unfold parseAddressRecord, insertAll.
  rewrite fold_left_app. now destruct (R (snd r)).
Qed.

Lemma parse_labels_resolved rs M :
  fold_left (parseLabelRecord L R) rs M
  = recordAllSymbols L M (resolved R rs).
Proof.
  revert M; induction rs as [|r rs IH]; intros M; [reflexivity|].
  simpl. rewrite IH. unfold parseLabelRecord, recordAllSymbols.
  rewrite fold_left_app. now destruct (R (snd r)).
Qed.

Lemma resolved_keep {K : Type} (rs : list (K * SymbolicReference)) :
  resolved R (keep_resolvable R rs) = resolved R rs.
Proof.
  induction rs as [|r rs IH]; [reflexivity|].
  simpl. destruct (R (snd r)) eqn:E; simpl; [now rewrite E, IH | exact IH].
Qed.

Lemma resolved_known {K : Type} (known : SymbolicReference -> uint64_t)
    (rs : list (K * SymbolicReference)) :
  (forall r, In r rs -> R (snd r) = Some (known (snd r))) ->
  resolved R rs = map (fun r => (fst r, known (snd r))) rs.
Proof.
  induction rs as [|r rs IH]; intros H; [reflexivity|].
  simpl. rewrite (H r) by now left. simpl. f_equal.
  apply IH. intros r' Hr'. apply H. now right.
Qed.

End WithResolver.

Lemma records_keep {K : Type} (R : Resolver)
    (Section_ : option (list (K * SymbolicReference))) :
  records (option_map (keep_resolvable R) Section_)
  = keep_resolvable R (records Section_).
Proof. now destruct Section_. Qed.

Lemma parse_present P L BC :
  AddressSection (Object BC) <> None \/ LabelSection (Object BC) <> None ->
  parse P L BC = Some (parsed P L BC).
Proof.
  intros H. unfold parse, parsed.
  destruct (AddressSection (Object BC)), (LabelSection (Object BC));
    try (now rewrite parse_addresses_resolved, parse_labels_resolved).
  destruct H as [H | H]; now elim H.
Qed.

Lemma parsed_without_unresolved P L BC :
  parsed P L (without_unresolved BC) = parsed P L BC.
Proof.
  unfold parsed, without_unresolved; simpl.
  now rewrite !records_keep, !resolved_keep.
Qed.

Lemma fold_appendAddressRecord O rs Addresses :
  AddressSection O = Some rs ->
  fold_left appendAddressRecord Addresses O
  = mkObjectFile (Some (rs ++ Addresses)) (LabelSection O).
Proof.
  revert O rs; induction Addresses as [|r Addresses IH]; intros O rs H.
  - simpl. rewrite app_nil_r, <- H. now destruct O.
  - simpl. rewrite (IH _ (rs ++ [r])).
    + simpl. now rewrite <- app_assoc.
    + unfold appendAddressRecord. simpl. now rewrite H.
Qed.

Lemma fold_appendLabelRecord O rs Labels :
  LabelSection O = Some rs ->
  fold_left appendLabelRecord Labels O
  = mkObjectFile (AddressSection O) (Some (rs ++ Labels)).
Proof.
  revert O rs; induction Labels as [|r Labels IH]; intros O rs H.
  - simpl. rewrite app_nil_r, <- H. now destruct O.
  - simpl. rewrite (IH _ (rs ++ [r])).
    + simpl. now rewrite <- app_assoc.
    + unfold appendLabelRecord. simpl. now rewrite H.
Qed.

(** [emit] on a fresh object file leaves exactly the given records, in
    encounter order, in the two sections. *)
Lemma emit_fresh Addresses Labels :
  emit noSections Addresses Labels
  = mkObjectFile (Some Addresses) (Some Labels).
Proof.
  unfold emit.
  rewrite (fold_appendAddressRecord (openSections noSections) [] Addresses)
    by reflexivity.
  now rewrite (fold_appendLabelRecord _ [] Labels) by reflexivity.
Qed.

Lemma inserted_for_known (known : SymbolicReference -> uint64_t) a
    (Addresses : list (uint64_t * SymbolicReference)) :
  inserted_for a (map (fun r => (fst r, known (snd r))) Addresses)
  = map known (emitted_for a Addresses).
Proof.
  unfold inserted_for, emitted_for.
  induction Addresses as [|r Addresses IH]; [reflexivity|].
  destruct r as [i ref]. cbn. unfold has_key at 1. cbn.
  destruct (N.eqb i a); cbn; now rewrite IH.
Qed.

End ParseFacts.

(** C3: emitting any associations into a fresh object file and parsing the
    two sections with a resolver that gives every emitted reference of the
    address section its address yields a map in which, for every input
    address, [getAllOutputs] and [lookupAll] return exactly the addresses of
    the references emitted for that input address, each as often as it was
    emitted. *)
Theorem emit_parse_round_trip
    (P : Placement) (L : LabelPolicy)
    (Addresses : list (uint64_t * SymbolicReference))
    (Labels : list (MCSymbolPtr * SymbolicReference))
    (R : Resolver) (known : SymbolicReference -> uint64_t) :
  (forall r, In r Addresses -> R (snd r) = Some (known (snd r))) ->
  exists M,
    parse P L (link (emit noSections Addresses Labels) R) = Some M
    /\ forall a,
         getAllOutputs M a = Some (lookupAll_values M a)
         /\ Permutation (lookupAll_values M a)
                        (map known (emitted_for a Addresses)).
Proof.
  intros HR. rewrite ParseFacts.emit_fresh.
  eexists. split; [apply ParseFacts.parse_present; left; discriminate|].
  intros a. split; [apply LookupFacts.getAllOutputs_lookupAll|].
  unfold parsed. simpl.
  rewrite (ParseFacts.lookupAll_values_ext _ _ a
             (ParseFacts.recordAllSymbols_addresses L _ _)).
  rewrite (ParseFacts.resolved_known R known Addresses HR).
  rewrite <- ParseFacts.inserted_for_known.
  apply lookupAll_values_insertAll.
Qed.

Lemma emit_parse_round_trip_witness :
  exists M,
    parse libstdcxx FirstWins
      (link (emit noSections [(0x1000, 1); (0x2000, 2); (0x1000, 3)]%N
                             [(7, 4)]%N)
            (fun s => Some (0x5000 + s)%N))
    = Some M
    /\ forall a,
         getAllOutputs M a = Some (lookupAll_values M a)
         /\ Permutation (lookupAll_values M a)
              (map (fun s => (0x5000 + s)%N)
                   (emitted_for a [(0x1000, 1); (0x2000, 2); (0x1000, 3)]%N)).
Proof.
  apply (emit_parse_round_trip libstdcxx FirstWins
           [(0x1000, 1); (0x2000, 2); (0x1000, 3)]%N [(7, 4)]%N
           (fun s => Some (0x5000 + s)%N) (fun s => (0x5000 + s)%N)).
  intros r _. reflexivity.
Defined.

(** C4: [parse] has no value exactly when neither of the two sections
    exists; in particular an object with neither section gives no value,
    while an object whose two sections exist and are empty gives a map that
    is present and empty. *)
Theorem parse_absent_or_empty
    (P : Placement) (L : LabelPolicy) (BC : BinaryContext) :
  (parse P L BC = None
   <-> AddressSection (Object BC) = None /\ LabelSection (Object BC) = None)
  /\ parse P L (link noSections (resolve BC)) = None
  /\ parse P L (link (mkObjectFile (Some []) (Some [])) (resolve BC))
     = Some empty
  /\ Some empty <> (None : option AddressMap).
Proof.
  split.
  - unfold parse.
    destruct (AddressSection (Object BC)), (LabelSection (Object BC));
      split; try discriminate; try tauto;
      intros [H1 H2]; discriminate.
  - repeat split. discriminate.
Qed.

(** C5: whenever a section exists, [parse] returns a map; that map is the one
    obtained from the same sections with every record whose reference does
    not resolve taken out, so such records are left out and change nothing
    about the others; its address relation holds, for every input address,
    exactly the resolved outputs of the records that resolve. *)
Theorem parse_skips_unresolved
    (P : Placement) (L : LabelPolicy) (BC : BinaryContext) :
  AddressSection (Object BC) <> None \/ LabelSection (Object BC) <> None ->
  exists M,
    parse P L BC = Some M
    /\ parse P L (without_unresolved BC) = Some M
    /\ M = recordAllSymbols L
             (insertAll P empty
                (resolved (resolve BC) (records (AddressSection (Object BC)))))
             (resolved (resolve BC) (records (LabelSection (Object BC))))
    /\ forall a,
         Permutation (lookupAll_values M a)
           (inserted_for a
              (resolved (resolve BC) (records (AddressSection (Object BC))))).
Proof.
  intros H. exists (parsed P L BC).
  split; [now apply ParseFacts.parse_present|].
  split.
  - rewrite <- ParseFacts.parsed_without_unresolved.
    apply ParseFacts.parse_present.
    unfold without_unresolved; simpl.
    destruct (AddressSection (Object BC)), (LabelSection (Object BC));
      simpl; try (left; discriminate); try (right; discriminate).
    exact H.
  - split; [reflexivity|].
    intros a. unfold parsed.
    rewrite (ParseFacts.lookupAll_values_ext _ _ a
               (ParseFacts.recordAllSymbols_addresses L _ _)).
    apply lookupAll_values_insertAll.
Qed.

Lemma parse_skips_unresolved_witness :
  let BC :=
    link (mkObjectFile (Some [(0x1000, 1); (0x1000, 9); (0x2000, 2)]%N) None)
         (fun s => if N.eqb s 9 then None else Some (0x5000 + s)%N) in
  (AddressSection (Object BC) <> None \/ LabelSection (Object BC) <> None)
  /\ exists M,
       parse libcxx FirstWins BC = Some M
       /\ Address2AddressMap M = [(0x1000, 0x5001); (0x2000, 0x5002)]%N.
Proof.
  set (BC := link (mkObjectFile
                     (Some [(0x1000, 1); (0x1000, 9); (0x2000, 2)]%N) None)
                  (fun s => if N.eqb s 9 then None else Some (0x5000 + s)%N)).
  assert (H : AddressSection (Object BC) <> None
              \/ LabelSection (Object BC) <> None)
    by (left; discriminate).
  split; [exact H|].
  destruct (parse_skips_unresolved libcxx FirstWins BC H)
    as [M [HM [_ [HE _]]]].
  exists M. split; [exact HM|]. rewrite HE. reflexivity.
Defined.

(** * Further properties of the lookups *)

(** The [i]-th element of the range of [k] carries the key [k], and its value
    is the [i]-th value of the range. *)
Lemma range_nth (m : UnorderedMultimap.t) (k : uint64_t) (i : nat) :
  i < length (group (skipn (find m k) m) k) ->
  exists o,
    nth_error m (find m k + i) = Some (k, o)
    /\ nth_error (range_values m (equal_range m k)) i = Some o.
Proof.
  intros Hi. rewrite UMFacts.range_values_equal_range.
  rewrite <- nth_error_skipn.
  pose proof (UMFacts.group_firstn (skipn (find m k) m) k) as Hf.
  pose proof (UMFacts.group_Forall (skipn (find m k) m) k) as Hall.
  destruct (nth_error (group (skipn (find m k) m) k) i) as [p|] eqn:Hp;
    [|apply nth_error_None in Hp; lia].
  assert (Hk : fst p = k).
  { apply UMFacts.has_key_true.
    exact (proj1 (Forall_forall _ _) Hall p (nth_error_In _ _ Hp)). }
  exists (snd p). split.
  - rewrite <- Hf in Hp. rewrite nth_error_firstn in Hp.
    apply Nat.ltb_lt in Hi. rewrite Hi in Hp. rewrite Hp.
    destruct p; simpl in *; now subst.
  - now rewrite nth_error_map, Hp.
Qed.

Lemma range_values_length (m : UnorderedMultimap.t) (k : uint64_t) :
  length (range_values m (equal_range m k))
  = snd (equal_range m k) - fst (equal_range m k).
Proof.
  rewrite UMFacts.range_values_equal_range, length_map.
  unfold equal_range; simpl. lia.
Qed.

Lemma range_values_sound (m : UnorderedMultimap.t) (k o : uint64_t) :
  In o (range_values m (equal_range m k)) -> In (k, o) m.
Proof.
  intros Hin. apply In_nth_error in Hin as [i Hi].
  assert (Hlt : i < length (group (skipn (find m k) m) k)).
  { assert (Hlen : i < length (range_values m (equal_range m k)))
      by (apply nth_error_Some; rewrite Hi; discriminate).
    rewrite UMFacts.range_values_equal_range, length_map in Hlen. exact Hlen. }
  destruct (range_nth m k i Hlt) as [o' [Hm Hr]].
  rewrite Hi in Hr. injection Hr as <-.
  exact (nth_error_In _ _ Hm).
Qed.

Lemma values_of_count (m : UnorderedMultimap.t) (k o : uint64_t) :
  count_occ N.eq_dec (values_of m k) o = count_occ pair_eq_dec m (k, o).
Proof.
  unfold values_of. induction m as [|[i x] m IH]; [reflexivity|].
  simpl filter. unfold has_key at 1. simpl fst.
  destruct (N.eqb i k) eqn:E.
  - apply N.eqb_eq in E. subst i. simpl map.
    destruct (N.eq_dec x o) as [-> | Hne].
    + rewrite (count_occ_cons_eq N.eq_dec _ eq_refl).
      rewrite (count_occ_cons_eq pair_eq_dec _ eq_refl). now rewrite IH.
    + rewrite (count_occ_cons_neq N.eq_dec _ Hne).
      rewrite (count_occ_cons_neq pair_eq_dec); [exact IH | congruence].
  - apply N.eqb_neq in E.
    rewrite (count_occ_cons_neq pair_eq_dec); [exact IH | congruence].
Qed.

Lemma lookupAll_values_run (P : Placement) (L : LabelPolicy)
    (M : AddressMap) (ops : list Operation) (a : uint64_t) :
  grouped (Address2AddressMap M) ->
  lookupAll_values (run P L M ops) a
  = values_of (Address2AddressMap (insertAll P M (recorded_addresses ops))) a.
Proof.
  intros H. rewrite LookupFacts.lookupAll_values_grouped
    by now apply MachineFacts.run_grouped.
  now rewrite MachineFacts.run_addresses.
Qed.

(** X1: on every map, a result of [lookup] is the output address of a pair
    stored under the queried input address, and [lookup] finds nothing
    exactly when no pair is stored under it. *)
Theorem lookup_sound (M : AddressMap) (a o : uint64_t) :
  (lookup M a = Some o -> In (a, o) (Address2AddressMap M))
  /\ (lookup M a = None <-> ~ In a (map fst (Address2AddressMap M))).
Proof.
  split; [|apply lookup_None_iff].
  rewrite LookupFacts.lookup_head. intros H.
  apply range_values_sound. fold (lookupAll M a).
  fold (lookupAll_values M a).
  destruct (lookupAll_values M a); simpl in H;
    [discriminate | injection H as ->; now left].
Qed.

Lemma lookup_sound_witness :
  lookup (mkAddressMap [(1, 10); (2, 20); (2, 21)]%N []) 2%N = Some 20%N
  /\ In (2, 20)%N [(1, 10); (2, 20); (2, 21)]%N.
Proof.
  split; [reflexivity|].
  exact (proj1 (lookup_sound (mkAddressMap [(1, 10); (2, 20); (2, 21)]%N [])
                  2%N 20%N) eq_refl).
Defined.

(** X2: on every map, each iterator inside the range returned by
    [lookupAll] points at an element whose key is the queried input address;
    [getAllOutputs] returns as many values as the range is long, and its
    element at the iterator's distance from the start of the range is that
    element's output address. *)
Theorem lookupAll_range_elements
    (M : AddressMap) (a : uint64_t) (It : iterator) :
  fst (lookupAll M a) <= It -> It < snd (lookupAll M a) ->
  exists o outs,
    deref (Address2AddressMap M) It = Some (a, o)
    /\ getAllOutputs M a = Some outs
    /\ length outs = snd (lookupAll M a) - fst (lookupAll M a)
    /\ nth_error outs (It - fst (lookupAll M a)) = Some o.
Proof.
  intros H1 H2. unfold lookupAll in *. set (m := Address2AddressMap M) in *.
  assert (Hi : It - find m a < length (group (skipn (find m a) m) a))
    by (unfold equal_range in *; simpl in *; lia).
  destruct (range_nth m a _ Hi) as [o [Hm Hr]].
  exists o, (range_values m (equal_range m a)).
  replace (find m a + (It - find m a)) with It in Hm
    by (unfold equal_range in *; simpl in *; lia).
  split; [exact Hm|].
  split; [apply LookupFacts.getAllOutputs_lookupAll|].
  split; [apply range_values_length | exact Hr].
Qed.

Lemma lookupAll_range_elements_witness :
  exists o outs,
    deref [(1, 10); (2, 20); (2, 21); (3, 30)]%N 2 = Some (2%N, o)
    /\ getAllOutputs
         (mkAddressMap [(1, 10); (2, 20); (2, 21); (3, 30)]%N []) 2%N
       = Some outs
    /\ length outs = 3 - 1
    /\ nth_error outs (2 - 1) = Some o.
Proof.
  apply (lookupAll_range_elements
           (mkAddressMap [(1, 10); (2, 20); (2, 21); (3, 30)]%N []) 2%N 2);
    simpl; lia.
Defined.

(** X3: on every map, the range returned by [lookupAll] is empty exactly
    when [lookup] finds nothing, which is exactly when its first iterator is
    [end()]; otherwise [lookup] returns the output address of the element the
    first iterator points at. *)
Theorem lookup_reads_range_start (M : AddressMap) (a : uint64_t) :
  (fst (lookupAll M a) = snd (lookupAll M a) <-> lookup M a = None)
  /\ (fst (lookupAll M a) = end_ (Address2AddressMap M)
      <-> lookup M a = None)
  /\ lookup M a
     = (if Nat.eqb (fst (lookupAll M a)) (snd (lookupAll M a)) then None
        else option_map snd
               (deref (Address2AddressMap M) (fst (lookupAll M a)))).
Proof.
  assert (Hempty : fst (lookupAll M a) = snd (lookupAll M a)
                   <-> lookup M a = None).
  { rewrite LookupFacts.lookup_head. unfold lookupAll_values, lookupAll.
    rewrite UMFacts.range_values_equal_range. unfold equal_range; simpl.
    destruct (group (skipn (find (Address2AddressMap M) a)
                           (Address2AddressMap M)) a); simpl; split;
      try reflexivity; try discriminate; lia. }
  assert (Hend : fst (lookupAll M a) = end_ (Address2AddressMap M)
                 <-> lookup M a = None).
  { rewrite lookup_None_iff. apply UMFacts.find_end_iff. }
  split; [exact Hempty|]. split; [exact Hend|].
  destruct (Nat.eqb (fst (lookupAll M a)) (snd (lookupAll M a))) eqn:E.
  - apply Nat.eqb_eq in E. now apply Hempty.
  - unfold lookup. fold (fst (lookupAll M a)).
    destruct (Nat.eqb (find (Address2AddressMap M) a)
                      (end_ (Address2AddressMap M))) eqn:E';
      [|reflexivity].
    apply Nat.eqb_eq in E'. apply Nat.eqb_neq in E. exfalso. apply E.
    apply Hempty, Hend. exact E'.
Qed.

(** X4: in every reachable map, [getAllOutputs] lists an output address
    exactly as often as the pair (queried input address, output address) is
    stored in the address relation; so it lists exactly the outputs stored
    under that input address. *)
Theorem getAllOutputs_exact
    (P : Placement) (L : LabelPolicy) (M : AddressMap) (a : uint64_t) :
  reachable P L M ->
  exists outs,
    getAllOutputs M a = Some outs
    /\ (forall o, count_occ N.eq_dec outs o
                  = count_occ pair_eq_dec (Address2AddressMap M) (a, o))
    /\ (forall o, In o outs <-> In (a, o) (Address2AddressMap M)).
Proof.
  intros HR. exists (lookupAll_values M a).
  split; [apply LookupFacts.getAllOutputs_lookupAll|].
  rewrite LookupFacts.lookupAll_values_grouped
    by exact (@MachineFacts.reachable_grouped P L M HR).
  split; [intros o; apply values_of_count|].
  intros o. rewrite (count_occ_In N.eq_dec), (count_occ_In pair_eq_dec).
  now rewrite values_of_count.
Qed.

Lemma getAllOutputs_exact_witness :
  let M := run libstdcxx FirstWins empty
             [OpRecordAddress 1 10; OpRecordAddress 2 20;
              OpRecordAddress 1 10; OpRecordAddress 1 11]%N in
  reachable libstdcxx FirstWins M
  /\ exists outs,
       getAllOutputs M 1%N = Some outs
       /\ (forall o, count_occ N.eq_dec outs o
                     = count_occ pair_eq_dec (Address2AddressMap M) (1%N, o))
       /\ (forall o, In o outs <-> In (1%N, o) (Address2AddressMap M)).
Proof.
  assert (HR : reachable libstdcxx FirstWins
                 (run libstdcxx FirstWins empty
                    [OpRecordAddress 1 10; OpRecordAddress 2 20;
                     OpRecordAddress 1 10; OpRecordAddress 1 11]%N))
    by (eexists; reflexivity).
  split; [exact HR|].
  exact (@getAllOutputs_exact libstdcxx FirstWins _ 1%N HR).
Defined.

Lemma lookupAll_values_recordAddress_other
    (P : Placement) (M : AddressMap) (k v k' : uint64_t) :
  grouped (Address2AddressMap M) -> k' <> k ->
  lookupAll_values (recordAddress P M k v) k' = lookupAll_values M k'.
Proof.
  intros HG Hk.
  rewrite (LookupFacts.lookupAll_values_grouped M k' HG).
  rewrite LookupFacts.lookupAll_values_grouped
    by (simpl; now apply EmplaceFacts.grouped_emplace).
  simpl. now apply EmplaceFacts.values_of_emplace_other.
Qed.

(** X5: in every reachable map, recording an output for one input address
    changes the answer of [lookup] and of [getAllOutputs] for no other input
    address, whatever the placement, and the answer of [lookup] for no
    label; recording a label changes no answer for an input address. *)
Theorem recording_leaves_other_keys
    (P : Placement) (L : LabelPolicy) (M : AddressMap)
    (k v k' : uint64_t) (s l : MCSymbolPtr) (x : uint64_t) :
  reachable P L M -> k' <> k ->
  lookup (recordAddress P M k v) k' = lookup M k'
  /\ getAllOutputs (recordAddress P M k v) k' = getAllOutputs M k'
  /\ lookupSymbol (recordAddress P M k v) s = lookupSymbol M s
  /\ lookup (recordSymbol L M l x) k' = lookup M k'
  /\ getAllOutputs (recordSymbol L M l x) k' = getAllOutputs M k'.
Proof.
  intros HR Hk.
  pose proof (lookupAll_values_recordAddress_other P M k v k'
                (@MachineFacts.reachable_grouped P L M HR) Hk) as Hv.
  split; [now rewrite !LookupFacts.lookup_head, Hv|].
  split; [now rewrite !LookupFacts.getAllOutputs_lookupAll, Hv|].
  repeat split.
Qed.

Lemma recording_leaves_other_keys_witness :
  let M := run libstdcxx FirstWins empty
             [OpRecordAddress 1 10; OpRecordAddress 2 20]%N in
  reachable libstdcxx FirstWins M
  /\ 2%N <> 1%N
  /\ getAllOutputs (recordAddress libstdcxx M 1%N 11%N) 2%N
     = getAllOutputs M 2%N.
Proof.
  assert (HR : reachable libstdcxx FirstWins
                 (run libstdcxx FirstWins empty
                    [OpRecordAddress 1 10; OpRecordAddress 2 20]%N))
    by (eexists; reflexivity).
  assert (Hk : 2%N <> 1%N) by discriminate.
  split; [exact HR|]. split; [exact Hk|].
  exact (proj1 (proj2
           (@recording_leaves_other_keys libstdcxx FirstWins _
              1%N 11%N 2%N 0%N 0%N 0%N HR Hk))).
Defined.

(** X6: all output addresses of an input address are preserved: after any
    further operations on a reachable map, under any placement,
    [getAllOutputs] returns the outputs it returned before together with the
    outputs recorded since for that input address, so no output is lost and
    none appears that was not recorded. *)
Theorem outputs_are_preserved
    (P : Placement) (L : LabelPolicy) (M : AddressMap)
    (ops : list Operation) (a : uint64_t) :
  reachable P L M ->
  exists outs outs',
    getAllOutputs M a = Some outs
    /\ getAllOutputs (run P L M ops) a = Some outs'
    /\ Permutation outs' (outs ++ inserted_for a (recorded_addresses ops))
    /\ (forall o, count_occ N.eq_dec outs o <= count_occ N.eq_dec outs' o)
    /\ length outs <= length outs'.
Proof.
  intros HR. pose proof (@MachineFacts.reachable_grouped P L M HR) as HG.
  exists (lookupAll_values M a), (lookupAll_values (run P L M ops) a).
  split; [apply LookupFacts.getAllOutputs_lookupAll|].
  split; [apply LookupFacts.getAllOutputs_lookupAll|].
  assert (Hp : Permutation (lookupAll_values (run P L M ops) a)
                 (lookupAll_values M a
                  ++ inserted_for a (recorded_addresses ops))).
  { rewrite (lookupAll_values_run P L M ops a HG).
    rewrite (LookupFacts.lookupAll_values_grouped M a HG).
    now apply LookupFacts.insertAll_values_perm. }
  split; [exact Hp|]. split.
  - intros o.
    pose proof (proj1 (Permutation_count_occ N.eq_dec _ _) Hp o) as Hc.
    rewrite count_occ_app in Hc. rewrite Hc. apply Nat.le_add_r.
  - rewrite (Permutation_length Hp), length_app. apply Nat.le_add_r.
Qed.

Lemma outputs_are_preserved_witness :
  let M := run libstdcxx LastWins empty [OpRecordAddress 1 10]%N in
  reachable libstdcxx LastWins M
  /\ exists outs outs',
       getAllOutputs M 1%N = Some outs
       /\ getAllOutputs
            (run libstdcxx LastWins M
               [OpRecordAddress 2 20; OpLookup 1; OpRecordAddress 1 11]%N)
            1%N
          = Some outs'
       /\ length outs <= length outs'.
Proof.
  assert (HR : reachable libstdcxx LastWins
                 (run libstdcxx LastWins empty [OpRecordAddress 1 10]%N))
    by (eexists; reflexivity).
  split; [exact HR|].
  destruct (@outputs_are_preserved libstdcxx LastWins _
              [OpRecordAddress 2 20; OpLookup 1; OpRecordAddress 1 11]%N
              1%N HR)
    as [outs [outs' [H1 [H2 [_ [_ H3]]]]]].
  exists outs, outs'. auto.
Defined.

(** X7: where the container links a new element behind the elements of its
    key (libc++), further operations on a reachable map only append to what
    [getAllOutputs] returns, in the order the outputs are recorded, and a
    result of [lookup], once there, stays the same. *)
Theorem libcxx_appends
    (L : LabelPolicy) (M : AddressMap) (ops : list Operation) (a : uint64_t) :
  reachable libcxx L M ->
  exists outs,
    getAllOutputs M a = Some outs
    /\ getAllOutputs (run libcxx L M ops) a
       = Some (outs ++ inserted_for a (recorded_addresses ops))
    /\ (lookup M a = None \/ lookup (run libcxx L M ops) a = lookup M a).
Proof.
  intros HR. pose proof (@MachineFacts.reachable_grouped libcxx L M HR) as HG.
  exists (lookupAll_values M a).
  assert (Hv : lookupAll_values (run libcxx L M ops) a
               = lookupAll_values M a
                 ++ inserted_for a (recorded_addresses ops)).
  { rewrite (lookupAll_values_run libcxx L M ops a HG).
    rewrite (LookupFacts.lookupAll_values_grouped M a HG).
    now apply LookupFacts.insertAll_values_libcxx. }
  split; [apply LookupFacts.getAllOutputs_lookupAll|].
  split; [now rewrite LookupFacts.getAllOutputs_lookupAll, Hv|].
  rewrite !LookupFacts.lookup_head, Hv.
  destruct (lookupAll_values M a); [now left | now right].
Qed.

Lemma libcxx_appends_witness :
  let M := run libcxx FirstWins empty [OpRecordAddress 1 10]%N in
  reachable libcxx FirstWins M
  /\ exists outs,
       getAllOutputs M 1%N = Some outs
       /\ getAllOutputs
            (run libcxx FirstWins M
               [OpRecordAddress 1 11; OpRecordAddress 2 20]%N) 1%N
          = Some (outs ++ [11%N]).
Proof.
  assert (HR : reachable libcxx FirstWins
                 (run libcxx FirstWins empty [OpRecordAddress 1 10]%N))
    by (eexists; reflexivity).
  split; [exact HR|].
  destruct (@libcxx_appends FirstWins _
              [OpRecordAddress 1 11; OpRecordAddress 2 20]%N 1%N HR)
    as [outs [H1 [H2 _]]].
  exists outs. split; [exact H1 | exact H2].
Defined.

(** X8: where the container links a new element in front of the elements of
    its key (libstdc++), further operations on a reachable map put the
    outputs recorded since, newest first, in front of what [getAllOutputs]
    returned, and [lookup] returns the output recorded last for the input
    address, or its former result when none was recorded since. *)
Theorem libstdcxx_prepends
    (L : LabelPolicy) (M : AddressMap) (ops : list Operation) (a : uint64_t) :
  reachable libstdcxx L M ->
  exists outs,
    getAllOutputs M a = Some outs
    /\ getAllOutputs (run libstdcxx L M ops) a
       = Some (rev (inserted_for a (recorded_addresses ops)) ++ outs)
    /\ lookup (run libstdcxx L M ops) a
       = match rev (inserted_for a (recorded_addresses ops)) with
         | o :: _ => Some o
         | [] => lookup M a
         end.
Proof.
  intros HR.
  pose proof (@MachineFacts.reachable_grouped libstdcxx L M HR) as HG.
  exists (lookupAll_values M a).
  assert (Hv : lookupAll_values (run libstdcxx L M ops) a
               = rev (inserted_for a (recorded_addresses ops))
                 ++ lookupAll_values M a).
  { rewrite (lookupAll_values_run libstdcxx L M ops a HG).
    rewrite (LookupFacts.lookupAll_values_grouped M a HG).
    now apply LookupFacts.insertAll_values_libstdcxx. }
  split; [apply LookupFacts.getAllOutputs_lookupAll|].
  split; [now rewrite LookupFacts.getAllOutputs_lookupAll, Hv|].
  rewrite !LookupFacts.lookup_head, Hv.
  now destruct (rev (inserted_for a (recorded_addresses ops))).
Qed.

Lemma libstdcxx_prepends_witness :
  let M := run libstdcxx FirstWins empty [OpRecordAddress 1 10]%N in
  reachable libstdcxx FirstWins M
  /\ exists outs,
       getAllOutputs M 1%N = Some outs
       /\ getAllOutputs
            (run libstdcxx FirstWins M
               [OpRecordAddress 1 11; OpRecordAddress 1 12]%N) 1%N
          = Some ([12; 11]%N ++ outs).
Proof.
  assert (HR : reachable libstdcxx FirstWins
                 (run libstdcxx FirstWins empty [OpRecordAddress 1 10]%N))
    by (eexists; reflexivity).
  split; [exact HR|].
  destruct (@libstdcxx_prepends FirstWins _
              [OpRecordAddress 1 11; OpRecordAddress 1 12]%N 1%N HR)
    as [outs [H1 [H2 _]]].
  exists outs. split; [exact H1 | exact H2].
Defined.
